(** * StarSpace agent (parlai/agents/starspace/starspace.py)

    A shallow embedding of the agent's candidate-file loader, option
    override, vectorizer, negative-sample cache and training / inference
    step, with the properties its specification states about them. *)

From Stdlib Require Import ZArith List String Ascii Bool Lia.
From stdpp Require Import base option list gmap strings sorting.

Local Open Scope Z_scope.
Local Open Scope string_scope.
Local Open Scope list_scope.
Local Open Scope nat_scope.

(** ** Option override ([StarspaceAgent.override_opt]) *)

Module Options.

(** Values an option dictionary holds: ints, floats are not compared here,
    strings, booleans and [None]. *)
Inductive value :=
| VInt (z : Z)
| VStr (s : string)
| VBool (b : bool)
| VNone.

#[export] Instance value_eq_dec : EqDecision value.
Proof. solve_decision. Defined.

(** [model_args = {'embeddingsize', 'optimizer'}] *)
Definition model_args : gset string := {[ "embeddingsize"; "optimizer" ]}.

(** What the method prints for one overridable key. *)
Inductive message :=
| Adding (k : string) (v : value)
| Overriding (k : string) (old v : value).

(** One iteration of [for k, v in new_opt.items()]; the state is
    [self.opt] and the lines printed so far. *)
Definition override_step (k : string) (v : value)
    (acc : gmap string value * list message) : gmap string value * list message :=
  let '(opt, out) := acc in
  if decide (k ∈ model_args) then
    let out' :=
      match opt !! k with
      | None => out ++ [Adding k v]
      | Some old => if decide (old = v) then out else out ++ [Overriding k old v]
      end in
    (<[k := v]> opt, out')
  else (opt, out).

Definition override_opt (opt new_opt : gmap string value)
    : gmap string value * list message :=
  map_fold override_step (opt, []) new_opt.

(** The dictionary [override_opt] leaves: [new_opt] restricted to
    [model_args], laid over the old options. *)
Definition overridden (opt new_opt : gmap string value) (k : string) : option value :=
  if decide (k ∈ model_args) then
    match new_opt !! k with Some v => Some v | None => opt !! k end
  else opt !! k.

End Options.

(** ** Candidate files ([load_cands]) *)

Module Candidates.

Definition tab : ascii := ascii_of_nat 9.
Definition newline : ascii := ascii_of_nat 10.
Definition backslash : ascii := ascii_of_nat 92.

(** The characters [str.strip()] removes (ASCII range of [str.isspace]). *)
Definition is_space (c : ascii) : bool :=
  let n := nat_of_ascii c in
  ((9 <=? n) && (n <=? 13)) || ((28 <=? n) && (n <=? 32)).

Fixpoint lstrip (s : string) : string :=
  match s with
  | String c r => if is_space c then lstrip r else s
  | EmptyString => EmptyString
  end.

Fixpoint rstrip (s : string) : string :=
  match s with
  | String c r =>
      match rstrip r with
      | EmptyString => if is_space c then EmptyString else String c EmptyString
      | r' => String c r'
      end
  | EmptyString => EmptyString
  end.

Definition strip (s : string) : string := rstrip (lstrip s).

(** [line.replace('\\n', '\n')]: every backslash followed by [n] becomes
    one newline character, scanning from the left. *)
Fixpoint unescape (s : string) : string :=
  match s with
  | String c r =>
      match r with
      | String c' r' =>
          if (Ascii.eqb c backslash && Ascii.eqb c' "n"%char)%bool
          then String newline (unescape r')
          else String c (unescape r)
      | EmptyString => s
      end
  | EmptyString => EmptyString
  end.

(** ['\t' in line] *)
Fixpoint contains (ch : ascii) (s : string) : bool :=
  match s with
  | String c r => Ascii.eqb c ch || contains ch r
  | EmptyString => false
  end.

(** [line.find(ch)]: the first position of [ch], or [-1]. *)
Fixpoint find (ch : ascii) (s : string) : Z :=
  match s with
  | String c r =>
      if Ascii.eqb c ch then 0%Z
      else let i := find ch r in if (i <? 0)%Z then (-1)%Z else (i + 1)%Z
  | EmptyString => (-1)%Z
  end.

(** [line[i:]] for [i >= 0]. *)
Fixpoint drop (n : nat) (s : string) : string :=
  match n, s with
  | S n', String _ r => drop n' r
  | _, _ => s
  end.

(** [line.split(sep)] for a one-character separator. *)
Fixpoint split (sep : ascii) (s : string) : list string :=
  match s with
  | String c r =>
      if Ascii.eqb c sep then EmptyString :: split sep r
      else match split sep r with
           | h :: t => String c h :: t
           | [] => [String c EmptyString]
           end
  | EmptyString => [EmptyString]
  end.

Record state := mkState {
  cands : list string;
  lines_have_ids : bool;
  cands_are_replies : bool;
  cnt : nat
}.

Definition init : state := mkState [] false false 0.

(** The body of the loop on a line already stripped and unescaped, known
    to be non-empty. *)
Definition add_line (st : state) (line : string) : state :=
  let cnt := cnt st + 1 in
  let ids := if (cnt =? 1) && String.eqb (substring 0 2 line) "1 "
             then true else lines_have_ids st in
  let restart := contains tab line && negb (cands_are_replies st) in
  let replies := if restart then true else cands_are_replies st in
  let cands := if restart then [] else cands st in
  if ids then
    let space_idx := find " "%char line in
    let line := drop (Z.to_nat (space_idx + 1)) line in
    if replies then
      let sp := split tab line in
      match sp with
      | _ :: f :: _ =>
          if negb (String.eqb f "") then mkState (cands ++ [f]) ids replies cnt
          else mkState cands ids replies cnt
      | _ => mkState cands ids replies cnt
      end
    else mkState (cands ++ [line]) ids replies cnt
  else mkState (cands ++ [line]) ids replies cnt.

(** [line = line.strip().replace('\\n', '\n')] *)
Definition clean (raw : string) : string := unescape (strip raw).

Definition step (st : state) (raw : string) : state :=
  let line := clean raw in
  if 0 <? String.length line then add_line st line else st.

(** [load_cands] on the lines of the file at [path]; [None] stands for
    [path is None]. *)
Definition load_cands (file : option (list string)) : option (list string) :=
  match file with
  | None => None
  | Some lines => Some (cands (fold_left step lines init))
  end.

(** The line with its number prefix removed. *)
Definition strip_id (line : string) : string :=
  drop (Z.to_nat (find " "%char line + 1)) line.

(** What a line of a numbered reply-form file contributes. *)
Definition reply_of (line : string) : list string :=
  match split tab (strip_id line) with
  | _ :: f :: _ => if String.eqb f "" then [] else [f]
  | _ => []
  end.

Definition lines_of (lines : list string) : list string :=
  List.filter (fun l => 0 <? String.length l) (map clean lines).

Definition scenario4 : list string :=
  [ "1 hi" +:+ String tab "there" +:+ String newline "";
    "2 yo" +:+ String tab "buddy" +:+ String newline "" ].

Definition unnumbered : list string :=
  [ "hi" +:+ String tab "there" +:+ String newline "" ].

End Candidates.

(** ** Bounded deques ([collections.deque(maxlen=...)]) *)

Module Deque.
Section Ops.
Context {A : Type}.

Record deque := mkDeque { maxlen : option nat; items : list A }.

Definition empty (m : option nat) : deque := mkDeque m [].

Definition is_full (d : deque) : bool :=
  match maxlen d with
  | Some n => n <=? length (items d)
  | None => false
  end.

(** [d.appendleft(x)]: a full deque drops its rightmost item; a deque
    of [maxlen] 0 stays empty. *)
Definition appendleft (d : deque) (x : A) : deque :=
  if is_full d then
    match items d with
    | [] => d
    | _ => mkDeque (maxlen d) (x :: removelast (items d))
    end
  else mkDeque (maxlen d) (x :: items d).

(** [d.append(x)]: a full deque drops its leftmost item. *)
Definition append (d : deque) (x : A) : deque :=
  if is_full d then
    match items d with
    | [] => d
    | _ :: r => mkDeque (maxlen d) (r ++ [x])
    end
  else mkDeque (maxlen d) (items d ++ [x]).

(** [d.extendleft(xs)] appends on the left one item at a time. *)
Definition extendleft (d : deque) (xs : list A) : deque :=
  fold_left appendleft xs d.

(** [d.extend(xs)], also written [d += xs]. *)
Definition extend (d : deque) (xs : list A) : deque :=
  fold_left append xs d.

End Ops.
Arguments deque : clear implicits.
End Deque.

(** ** Stable sorting ([sorted(...)] and [Tensor.sort]) *)

Module StableSort.
Section Sort.
Context {A : Type} (before : A → A → bool).

(** [before x y] holds when [x] may stand in front of [y]. *)
Fixpoint insert (x : A) (l : list A) : list A :=
  match l with
  | [] => [x]
  | y :: l' => if before x y then x :: l else y :: insert x l'
  end.

(** Insertion from the right end: an item is put in front of the items
    it ties with, all of which came after it. *)
Definition sort (l : list A) : list A := foldr insert [] l.
End Sort.

(** [sorted(range(n), key=lambda k: key[k])] where the keys are compared
    by [le]. *)
Definition argsort {K : Type} (le : K → K → bool) (keys : list K) : list nat :=
  map fst (sort (fun a b => le (snd a) (snd b)) (zip (seq 0 (length keys)) keys)).

(** The order a stable sort establishes on keyed items: by key, and by
    position in the input among equal keys. *)
Definition stable_order {K : Type} (le : K → K → bool) (a b : nat * K) : Prop :=
  le (snd a) (snd b) = true ∧ (le (snd b) (snd a) = true → fst a < fst b).

(** The same order on the indices [argsort] returns. *)
Definition index_order {K : Type} (le : K → K → bool) (keys : list K)
    (i j : nat) : Prop :=
  ∃ ki kj, keys !! i = Some ki ∧ keys !! j = Some kj ∧
           le ki kj = true ∧ (le kj ki = true → i < j).
End StableSort.

(** ** The agent ([StarspaceAgent]) *)

Module Starspace.
Import Deque StableSort.

(** A two-dimensional [LongTensor]: one row of token indices per example. *)
Definition tensor := list (list Z).

(** [self.NULL_IDX] *)
Definition NULL_IDX : Z := 0.

(** What a Python row handed to [torch.LongTensor] may hold: an index, or
    a nested list. *)
Inductive item :=
| Idx (i : Z)
| Nested (l : list Z).

Definition index_of (it : item) : option Z :=
  match it with Idx i => Some i | Nested _ => None end.

Definition rectangular {A : Type} (rows : list (list A)) : bool :=
  forallb (fun r => length r =? length (hd [] rows)) rows.

(** [torch.LongTensor(rows)]: the rows must have one length and hold
    integers only; anything else raises. *)
Definition LongTensor (rows : list (list item)) : option tensor :=
  if rectangular rows then mapM (mapM index_of) rows else None.

(** An observation, as far as the agent reads it. *)
Record observation := mkObs {
  text2vec : option (list Z);
  labels : option (list string);
  label_candidates : option (list string)
}.

(** [max(...)] of a list of lengths. *)
Definition max_len {A : Type} (rows : list (list A)) : nat :=
  foldr Nat.max 0 (map length rows).

(** [[rows[k] for k in inds]] *)
Definition select {A : Type} (inds : list nat) (rows : list A) : list A :=
  omap (fun k => rows !! k) inds.

(** [x += [[self.NULL_IDX]] * (max_x_len - len(x))]: the padding items are
    one-element lists. *)
Definition pad_x (max_x_len : nat) (x : list Z) : list item :=
  map Idx x ++ replicate (max_x_len - length x) (Nested [NULL_IDX]).

(** [dq.extendleft(reversed(self.parse(y)))] on [deque(maxlen=truncate)] *)
Definition parse_label (parse : string → list Z) (truncate : option nat)
    (y : string) : deque Z :=
  extendleft (Deque.empty truncate) (rev (parse y)).

(** [y += [self.NULL_IDX] * (max_y_len - len(y))] *)
Definition pad_y (max_y_len : nat) (y : deque Z) : deque Z :=
  extend y (replicate (max_y_len - length (items y)) NULL_IDX).

(** [t.squeeze()].  The label tensor of one example has shape 1 x L and
    squeezes to its row; the model is exact for these and for tensors of
    equal shape, which it compares item by item. *)
Definition squeeze (t : tensor) : list Z := concat t.

(** Arithmetic of a [LongTensor] is on signed 64-bit integers. *)
Definition wrap64 (z : Z) : Z :=
  ((z + 2 ^ 63) mod 2 ^ 64 - 2 ^ 63)%Z.

Definition tensor_sub (a b : list Z) : list Z :=
  zip_with (fun x y => wrap64 (x - y)) a b.

Definition tensor_sum (a : list Z) : Z :=
  wrap64 (foldr Z.add 0%Z a).

(** [StarspaceAgent.same]: the lengths agree and the sum of the
    differences is, in absolute value, at most 0.00001; on integers, it
    is zero. *)
Definition same (y1 y2 : tensor) : bool :=
  if negb (length (squeeze y1) =? length (squeeze y2)) then false
  else if (0 <? Z.abs (tensor_sum (tensor_sub (squeeze y1) (squeeze y2))))%Z
       then false
       else true.

(** Numerical equality as the specification words it: the same length,
    and the sum of the absolute differences below 0.00001. *)
Definition num_equal (y1 y2 : tensor) : bool :=
  (length (squeeze y1) =? length (squeeze y2)) &&
  (foldr Z.add 0 (zip_with (fun x y => Z.abs (x - y)) (squeeze y1) (squeeze y2))
     <? 1)%Z.

(** Accesses to [self.ys_cache], in program order. *)
Inductive event :=
| CacheRead (index : nat)
| CacheWrite (index : nat).

Section Agent.
(** The embedding model and its optimizer are outside this file: their
    state is [mstate], and a score is what
    [nn.CosineSimilarity] gives for one candidate. *)
Context {mstate score loss_t : Type}.

(** [self.dict.txt2vec] *)
Variable parse : string → list Z.
(** Modelled from the spec: the embedding model followed by
    [nn.CosineSimilarity], one score for the input and one candidate. *)
Variable similarity : mstate → tensor → tensor → score.
(** [a >= b] on scores *)
Variable score_geb : score → score → bool.
(** [self.criterion(xe, ye, y)] on the positive and the negatives *)
Variable criterion : mstate → tensor → tensor → list tensor → loss_t.
(** [zero_grad], [backward] and [self.optimizer.step()] *)
Variable optimizer_step : mstate → tensor → tensor → list tensor → mstate.

Record agent := mkAgent {
  truncate : option nat;              (* self.truncate *)
  neg_samples : nat;                  (* self.opt['neg_samples'] *)
  parrot_neg : Z;                     (* self.opt['parrot_neg'] *)
  ys_cache_sz : Z;                    (* self.ys_cache_sz *)
  ys_cache : list tensor;             (* self.ys_cache *)
  last_utterance : option (list Z);   (* self.history['last_utterance'] *)
  fixedCands : option (list string);  (* self.fixedCands, None for False *)
  model : mstate;                     (* self.model and self.optimizer *)
  rnd : nat → nat;                    (* the random source *)
  drawn : nat;                        (* numbers drawn from it so far *)
  log : list event                    (* cache accesses so far *)
}.

(** [self.truncate = opt['truncate'] if opt['truncate'] > 0 else None] *)
Definition truncate_of (opt_truncate : Z) : option nat :=
  if (0 <? opt_truncate)%Z then Some (Z.to_nat opt_truncate) else None.

Definition set_cache (c : list tensor) (e : event) (a : agent) : agent :=
  mkAgent (truncate a) (neg_samples a) (parrot_neg a) (ys_cache_sz a) c
          (last_utterance a) (fixedCands a) (model a) (rnd a) (drawn a)
          (log a ++ [e]).

Definition set_model (m : mstate) (a : agent) : agent :=
  mkAgent (truncate a) (neg_samples a) (parrot_neg a) (ys_cache_sz a)
          (ys_cache a) (last_utterance a) (fixedCands a) m (rnd a) (drawn a)
          (log a).

Definition set_drawn (n : nat) (a : agent) : agent :=
  mkAgent (truncate a) (neg_samples a) (parrot_neg a) (ys_cache_sz a)
          (ys_cache a) (last_utterance a) (fixedCands a) (model a) (rnd a) n
          (log a).

(** The agent after [d] further draws and the cache accesses [evs],
    everything else as it was. *)
Definition advance (d : nat) (evs : list event) (a : agent) : agent :=
  mkAgent (truncate a) (neg_samples a) (parrot_neg a) (ys_cache_sz a)
          (ys_cache a) (last_utterance a) (fixedCands a) (model a) (rnd a)
          (drawn a + d) (log a ++ evs).

(** Methods run on the agent's state and may raise ([None]). *)
Definition M (A : Type) : Type := agent → option (A * agent).

Definition ret {A} (x : A) : M A := fun a => Some (x, a).
Definition raise {A} : M A := fun _ => None.
Definition bind {A B} (c : M A) (k : A → M B) : M B :=
  fun a => match c a with Some (x, a') => k x a' | None => None end.
Definition gets {A} (f : agent → A) : M A := fun a => Some (f a, a).
Definition modify (f : agent → agent) : M unit := fun a => Some (tt, f a).
Definition lift {A} (o : option A) : M A :=
  match o with Some x => ret x | None => raise end.

Notation "x <- c1 ;; c2" := (bind c1 (fun x => c2))
  (at level 100, c1 at next level, right associativity).

(** The next number of the random source. *)
Definition draw : M nat :=
  fun a => Some (rnd a (drawn a), set_drawn (S (drawn a)) a).

(** [random.randint(lo, hi)], both ends included; an empty range raises. *)
Definition randint (lo hi : Z) : M Z :=
  if (hi <? lo)%Z then raise
  else r <- draw ;; ret (lo + Z.of_nat r mod (hi - lo + 1))%Z.

(** [random.choice(seq)]; an empty sequence raises. *)
Definition choice {A} (seq : list A) : M A :=
  match seq with
  | [] => raise
  | _ => r <- draw ;; lift (seq !! (r mod length seq))
  end.

(** [self.ys_cache[index]] *)
Definition cache_get (index : nat) : M tensor :=
  fun a => match ys_cache a !! index with
           | Some t => Some (t, set_cache (ys_cache a) (CacheRead index) a)
           | None => None
           end.

(** [self.ys_cache.append(copy.deepcopy(ys))] *)
Definition cache_append (ys : tensor) : M unit :=
  modify (fun a => set_cache (ys_cache a ++ [ys])
                             (CacheWrite (length (ys_cache a))) a).

(** [self.ys_cache[ind] = copy.deepcopy(ys)] *)
Definition cache_set (ind : nat) (ys : tensor) : M unit :=
  fun a => if ind <? length (ys_cache a)
           then Some (tt, set_cache (<[ind := ys]> (ys_cache a)) (CacheWrite ind) a)
           else None.

(** *** [vectorize] *)

Definition valid (obs : observation) : bool :=
  match text2vec obs with
  | Some t => 0 <? length t
  | None => false
  end.

Record batch := mkBatch {
  xs : option tensor;
  ys : option tensor;
  cands : option (list (option (list tensor)));
  cands_txt : option (list (option (list string)))
}.

Fixpoint choose_labels (exs : list observation) : M (list string) :=
  match exs with
  | [] => ret []
  | ex :: exs' =>
      y <- choice (default [""] (labels ex)) ;;
      ys <- choose_labels exs' ;;
      ret (y :: ys)
  end.

(** The target tensor of the chosen labels. *)
Definition label_rows (trunc : option nat) (labels : list string) : list (list Z) :=
  let parsed_y := map (parse_label parse trunc) labels in
  let max_y_len := max_len (map items parsed_y) in
  map (fun y => items (pad_y max_y_len y)) parsed_y.

(** The row of a label that keeps its first [n] tokens, padded on the
    right with the null index to the longest such row. *)
Definition leading_row (n : nat) (chosen : list string) (y : string) : list Z :=
  take n (parse y) ++
  replicate (max_len (map (fun y => take n (parse y)) chosen)
             - length (take n (parse y))) NULL_IDX.

Definition candidates (o : observation)
    : option (list tensor) * option (list string) :=
  match label_candidates o with
  | Some cs => (Some (map (fun c => [parse c]) cs), Some cs)
  | None => (None, None)
  end.

(** [[(i, ex) for i, ex in enumerate(observations) if valid(ex)]] *)
Definition valid_examples (observations : list observation)
    : list (nat * observation) :=
  List.filter (fun p => valid (snd p)) (imap (fun i ex => (i, ex)) observations).

(** [sorted(range(len(x_lens)), key=lambda k: -x_lens[k])] *)
Definition ind_sorted (exs : list observation) : list nat :=
  let parsed_x := map (fun ex => default [] (text2vec ex)) exs in
  let x_lens := map length parsed_x in
  argsort Z.leb (map (fun n => (- Z.of_nat n)%Z) x_lens).

(** The valid examples in the order of the batch, longest context
    first, each with its position in [observations]. *)
Definition sorted_examples (observations : list observation)
    : list (nat * observation) :=
  let valid_exs := valid_examples observations in
  select (ind_sorted (map snd valid_exs)) valid_exs.

(** The rows handed to [torch.LongTensor] for [xs]. *)
Definition padded_x (exs : list observation) : list (list item) :=
  let parsed_x := map (fun ex => default [] (text2vec ex)) exs in
  map (pad_x (max_len parsed_x)) parsed_x.

(** The method returns [xs, ys, cands, cands_txt]; [valid_inds] is
    computed and reordered with the examples, and goes no further. *)
Definition vectorize (observations : list observation) : M batch :=
  match valid_examples observations with
  | [] => ret (mkBatch None None None None)
  | _ =>
      let valid_inds := map fst (sorted_examples observations) in
      let exs := map snd (sorted_examples observations) in
      let labels_avail := existsb (fun ex => bool_decide (is_Some (labels ex))) exs in
      xs <- lift (LongTensor (padded_x exs)) ;;
      ys <- (if labels_avail then
               labels <- choose_labels exs ;;
               trunc <- gets truncate ;;
               t <- lift (LongTensor (map (map Idx) (label_rows trunc labels))) ;;
               ret (Some t)
             else ret None) ;;
      let cs := match ys with
                | None => map candidates observations
                | Some _ => []
                end in
      ret (mkBatch (Some xs) ys (Some (map fst cs)) (Some (map snd cs)))
  end.

(** *** The negative-sample cache *)

(** The body of [for i in range(1, k * 3)], [fuel] iterations left. *)
Fixpoint sample_negs (ys : tensor) (cache_sz : Z) (k fuel : nat)
    (negs : list tensor) : M (list tensor) :=
  match fuel with
  | 0 => ret negs
  | S fuel' =>
      index <- randint 0 cache_sz ;;
      neg <- cache_get (Z.to_nat index) ;;
      if negb (same ys neg) then
        let negs' := negs ++ [neg] in
        if k <=? length negs' then ret negs'
        else sample_negs ys cache_sz k fuel' negs'
      else sample_negs ys cache_sz k fuel' negs
  end.

Definition get_negs (xs : option tensor) (ys : tensor) : M (list tensor) :=
  cache <- gets ys_cache ;;
  let cache_sz := (Z.of_nat (length cache) - 1)%Z in
  if (cache_sz <? 1)%Z then ret []
  else
    k <- gets neg_samples ;;
    negs <- sample_negs ys cache_sz k (k * 3 - 1) [] ;;
    parrot <- gets parrot_neg ;;
    if (0 <? parrot)%Z then
      utt <- bind (gets last_utterance) lift ;;
      if 2 <? length utt then ret (negs ++ [[utt]]) else ret negs
    else ret negs.

Definition add_to_ys_cache (ys : option tensor) : M unit :=
  match ys with
  | None => ret tt
  | Some y =>
      if length y =? 0 then ret tt
      else
        cache <- gets ys_cache ;;
        sz <- gets ys_cache_sz ;;
        if (Z.of_nat (length cache) <? sz)%Z then cache_append y
        else
          ind <- randint 0 (sz - 1) ;;
          cache_set (Z.to_nat ind) y
  end.

(** The cache slot the draw at position [pos] of the random source
    selects in [get_negs]. *)
Definition drawn_slot (a : agent) (pos : nat) : nat :=
  Z.to_nat (Z.of_nat (rnd a pos) mod Z.of_nat (length (ys_cache a))).

(** Whether that draw lands on an entry [same] tells apart from [ys]. *)
Definition hit (ys : tensor) (a : agent) (pos : nat) : bool :=
  match ys_cache a !! drawn_slot a pos with
  | Some t => negb (same ys t)
  | None => false
  end.

(** How many of the [n] draws from position [pos] on do. *)
Fixpoint hits (ys : tensor) (a : agent) (pos n : nat) : nat :=
  match n with
  | 0 => 0
  | S n' => (if hit ys a pos then 1 else 0) + hits ys a (S pos) n'
  end.

(** The negatives [get_negs] returns once [sampled] came out of the
    loop: with [parrot_neg] on, the last utterance is added when it has
    more than two tokens, and its absence from the history raises. *)
Definition with_parrot (a : agent) (sampled : list tensor) : option (list tensor) :=
  if (0 <? parrot_neg a)%Z then
    match last_utterance a with
    | Some utt => Some (if 2 <? length utt then sampled ++ [[utt]] else sampled)
    | None => None
    end
  else Some sampled.

(** *** [predict] *)

Record metrics := mkMetrics { mean_rank : nat; loss : loss_t }.

Record reply := mkReply {
  r_id : option string;
  r_metrics : option metrics;
  r_text : option string;
  r_text_candidates : option (list string)
}.

(** [{}] *)
Definition empty_reply : reply := mkReply None None None None.

Definition compute_metrics (l : loss_t) (scores : list score) : option metrics :=
  match scores with
  | [] => None
  | pos :: rest =>
      Some (mkMetrics (length (List.filter (fun s => score_geb s pos) rest)) l)
  end.

(** Modelled from the spec: [pred.sort(descending=True)] is a stable
    sort by descending similarity; this is the index tensor [ind]. *)
Definition sort_descending (pred : list score) : list nat :=
  argsort score_geb pred.

(** The inference branch once [cands[0]] is known. *)
Definition rank (xs : option tensor) (cs : list tensor)
    (cands_txt : option (list (option (list string)))) : M (list reply) :=
  x <- lift xs ;;
  m <- gets model ;;
  let pred := map (similarity m x) cs in
  let ind := sort_descending pred in
  ct <- lift (match cands_txt with
              | Some (Some ct :: _) => Some ct
              | _ => None
              end) ;;
  ypred <- lift (i ← ind !! 0; ct !! i) ;;
  tc <- lift (mapM (fun i => ct !! i) (take (Nat.min 100 (length ind)) ind)) ;;
  ret [mkReply None None (Some ypred) (Some tc)].

(** [predict].  Without candidates and with [self.fixedCands] set, the
    method goes on with [cands = [self.fixedCands]], which holds the
    strings [load_cands] returned where the model takes tensors, and with
    [cands_txt] as it was; that path is taken to raise. *)
Definition predict (xs ys : option tensor)
    (cands : option (list (option (list tensor))))
    (cands_txt : option (list (option (list string)))) : M (list reply) :=
  match ys with
  | Some y =>
      negs <- get_negs xs y ;;
      if 0 <? length negs then
        x <- lift xs ;;
        m <- gets model ;;
        let pred := map (similarity m x) (y :: negs) in
        let l := criterion m x y negs in
        _ <- modify (set_model (optimizer_step m x y negs)) ;;
        metrics <- lift (compute_metrics l pred) ;;
        ret [mkReply None (Some metrics) None None]
      else ret [empty_reply]
  | None =>
      match cands with
      | Some [] => raise
      | Some (Some cs :: _) => rank xs cs cands_txt
      | _ =>
          (* cannot predict without candidates *)
          fixed <- gets fixedCands ;;
          match fixed with
          | Some (_ :: _) => raise
          | _ => ret [empty_reply]
          end
      end
  end.

(** *** [batch_act] and [act] *)

Definition batch_act (observations : list observation) : M (list reply) :=
  let batchsize := length observations in
  let batch_reply := replicate batchsize (mkReply (Some "Starspace") None None None) in
  b <- vectorize observations ;;
  batch_reply <- predict (xs b) (ys b) (cands b) (cands_txt b) ;;
  _ <- add_to_ys_cache (ys b) ;;
  ret batch_reply.

Definition act (observation : observation) : M reply :=
  r <- batch_act [observation] ;;
  lift (r !! 0).

End Agent.
End Starspace.

(** ** Concrete agents, batches and steps *)

Module Examples.
Import Starspace.

(** An agent over a trivial model: [k] negatives, capacity [sz], the given
    cache and random source. *)
Definition agent_of (trunc : option nat) (k : nat) (sz : Z)
    (cache : list tensor) (src : nat → nat) : @agent unit :=
  mkAgent trunc k 0 sz cache None None tt src 0 [].

(** A cache of three entries, the first of them the target itself. *)
Definition cache3 : list tensor := [[[1; 2]]; [[3]]; [[4]]]%Z.

(** A tokenizer that maps every string to the three tokens 1, 2, 3. *)
Definition abc (_ : string) : list Z := [1; 2; 3]%Z.

(** One example with a context of one token and one label. *)
Definition labelled : observation := mkObs (Some [5]%Z) (Some ["a b c"]) None.

(** Two examples whose contexts have two tokens and one token. *)
Definition two_lengths : list observation :=
  [mkObs (Some [1; 2]%Z) None None; mkObs (Some [3]%Z) None None].

(** Two examples with contexts of one length, no labels, no candidates. *)
Definition two_plain : list observation :=
  [mkObs (Some [1; 2]%Z) None None; mkObs (Some [3; 4]%Z) None None].

(** The agent's step over a trivial model. *)
Definition batch_act0 : list observation → M (mstate := unit) (list (reply (loss_t := unit))) :=
  batch_act abc (fun _ _ _ => 0%Z) Z.geb (fun _ _ _ _ => tt) (fun m _ _ _ => m).

(** A similarity that is 1 on the candidate equal to the input and 0 on
    the others. *)
Definition exact_match (_ : unit) (x c : tensor) : Z :=
  if decide (c = x) then 1%Z else 0%Z.

Definition predict0 :=
  predict (loss_t := unit) exact_match Z.geb (fun _ _ _ _ => tt) (fun m _ _ _ => m).

(** The input "hello there" and the candidates "hi", "goodbye" and
    "hello there", tokenized. *)
Definition hello_there : tensor := [[7; 8]]%Z.
Definition greetings : list tensor := [[[1]]; [[2]]; [[7; 8]]]%Z.
Definition greetings_txt : list string := ["hi"; "goodbye"; "hello there"].

(** The agent with an empty cache, and the agent whose cache holds three
    targets, before a step on the labelled example. *)
Definition fresh : @agent unit := agent_of (Some 2) 2 3 [] (fun _ => 0).
Definition warm : @agent unit := agent_of (Some 2) 2 3 cache3 (fun n => n).

(** The batch [vectorize] builds from the labelled example. *)
Definition labelled_batch : batch :=
  mkBatch (Some [[5]]%Z) (Some [[1; 2]]%Z) (Some []) (Some []).

(** The replies and the agent after that step on the warm agent. *)
Definition warm_replies : list (reply (loss_t := unit)) :=
  default [] (fst <$> batch_act0 [labelled] warm).
Definition warm_after : @agent unit :=
  default warm (snd <$> batch_act0 [labelled] warm).

End Examples.

(** ** Further notions used to state properties *)

Module Supplement.
Import Candidates Options Starspace.

(** A string of whitespace only. *)
Fixpoint all_space (s : string) : bool :=
  match s with
  | String c r => is_space c && all_space r
  | EmptyString => true
  end.

(** The last character of a string. *)
Fixpoint last_char (s : string) : option ascii :=
  match s with
  | String c EmptyString => Some c
  | String _ r => last_char r
  | EmptyString => None
  end.

(** The tokenized context of an example, empty when it has none. *)
Definition context (ex : observation) : list Z := default [] (text2vec ex).

(** The order of a batch: longer contexts first, and among contexts of one
    length the order of the observations. *)
Definition batch_order (p q : nat * observation) : Prop :=
  length (context (snd q)) ≤ length (context (snd p)) ∧
  (length (context (snd p)) ≤ length (context (snd q)) → fst p < fst q).

(** The tokens of a label that a cap keeps. *)
Definition kept_tokens (trunc : option nat) (p : list Z) : list Z :=
  match trunc with Some n => take n p | None => p end.

(** [add_to_ys_cache] called on each target of a list in turn. *)
Fixpoint add_all {mstate : Type} (ts : list tensor) : M (mstate := mstate) unit :=
  match ts with
  | [] => ret tt
  | t :: ts' => bind (add_to_ys_cache (Some t)) (fun _ => add_all ts')
  end.

(** The loop of [compute_metrics] over the scores after the first,
    [for i in range(1, len(scores)): if scores[i] >= pos: cnt += 1],
    from the count [cnt]. *)
Fixpoint rank_loop {score : Type} (geb : score → score → bool) (pos : score)
    (cnt : nat) (rest : list score) : nat :=
  match rest with
  | [] => cnt
  | s :: rest' => rank_loop geb pos (if geb s pos then S cnt else cnt) rest'
  end.

(** The sum of the token indices of a tensor. *)
Definition token_sum (t : tensor) : Z := foldr Z.add 0%Z (squeeze t).

End Supplement.

(** ** Facts about the option override *)

Module OptionsFacts.
Import Options.

Lemma override_opt_lookup (opt new_opt : gmap string value) (k : string) :
  (override_opt opt new_opt).1 !! k = overridden opt new_opt k.
Proof.
  unfold override_opt.
  induction new_opt as [|i x m Hi Hfold IH] using map_first_key_ind.
  - rewrite map_fold_empty. unfold overridden. simpl.
    rewrite lookup_empty. by case_decide.
  - rewrite map_fold_insert_first_key by done.
    destruct (map_fold override_step (opt, []) m) as [o out] eqn:E.
    simpl in IH. unfold override_step, overridden in *.
    destruct (decide (i = k)) as [->|Hne].
    + rewrite lookup_insert_eq. case_decide; simpl.
      * by rewrite lookup_insert_eq.
      * exact IH.
    + rewrite (lookup_insert_ne m i k) by done. rewrite <- IH.
      destruct (decide (i ∈ model_args)); simpl; [|done].
      by rewrite lookup_insert_ne.
Qed.

(** C10: [override_opt] may add or change only 'embeddingsize' and
    'optimizer'.  Every other key of the agent's options keeps the value
    (or the absence) it had, whatever [new_opt] holds for it, and the two
    model keys take [new_opt]'s value exactly when [new_opt] has one. *)
Theorem override_opt_frame (opt new_opt : gmap string value) :
  (∀ k, k ≠ "embeddingsize" → k ≠ "optimizer" →
        (override_opt opt new_opt).1 !! k = opt !! k) ∧
  (∀ k, (override_opt opt new_opt).1 !! k ≠ opt !! k →
        (k = "embeddingsize" ∨ k = "optimizer") ∧
        (override_opt opt new_opt).1 !! k = new_opt !! k) ∧
  (∀ k v, (k = "embeddingsize" ∨ k = "optimizer") →
        new_opt !! k = Some v → (override_opt opt new_opt).1 !! k = Some v).
Proof.
  assert (Hargs : ∀ k, k ∈ model_args ↔ k = "embeddingsize" ∨ k = "optimizer")
    by (intros k; unfold model_args; set_solver).
  split; [|split].
  - intros k H1 H2. rewrite override_opt_lookup. unfold overridden.
    destruct (decide (k ∈ model_args)) as [Hin|Hin]; [|done].
    apply Hargs in Hin. tauto.
  - intros k. rewrite override_opt_lookup. unfold overridden.
    destruct (decide (k ∈ model_args)) as [Hin|Hin]; [|done].
    intros Hne. split; [by apply Hargs|].
    by destruct (new_opt !! k).
  - intros k v Hk Hv. rewrite override_opt_lookup. unfold overridden.
    rewrite decide_True by (by apply Hargs). by rewrite Hv.
Qed.

End OptionsFacts.

(** ** Facts about candidate files *)

Module CandidatesFacts.
Import Candidates.

Lemma fold_step_lines_of (lines : list string) (st : state) :
  fold_left step lines st = fold_left add_line (lines_of lines) st.
Proof.
  revert st. induction lines as [|raw lines IH]; intros st; [done|].
  unfold lines_of in *. simpl. unfold step at 2.
  destruct (0 <? String.length (clean raw)); simpl; apply IH.
Qed.

(** Once the file is known to be numbered and in reply form, every
    further line adds its reply field, if it has one. *)
Lemma add_line_reply (st : state) (line : string) :
  lines_have_ids st = true → cands_are_replies st = true →
  let st' := add_line st line in
  lines_have_ids st' = true ∧ cands_are_replies st' = true ∧
  cands st' = cands st ++ reply_of line.
Proof.
  intros Hids Hrep. unfold add_line, reply_of, strip_id.
  rewrite Hids, Hrep, andb_false_r. simpl.
  destruct (_ && _); simpl;
    destruct (split tab _) as [|? [|f ?]]; simpl;
    rewrite ?app_nil_r; try done;
    destruct (String.eqb f ""); simpl; by rewrite ?app_nil_r.
Qed.

Lemma fold_add_line_reply (post : list string) (st : state) :
  lines_have_ids st = true → cands_are_replies st = true →
  cands (fold_left add_line post st) = cands st ++ flat_map reply_of post.
Proof.
  revert st. induction post as [|l post IH]; intros st Hids Hrep; simpl.
  - by rewrite app_nil_r.
  - destruct (add_line_reply st l Hids Hrep) as (H1 & H2 & H3).
    rewrite IH, H3 by done. by rewrite <- app_assoc.
Qed.

(** Lines without a tab leave the file in plain form; a numbered file
    stays numbered. *)
Lemma add_line_plain (st : state) (line : string) :
  contains tab line = false → cands_are_replies st = false →
  let st' := add_line st line in
  cands_are_replies st' = false ∧ cnt st' = cnt st + 1 ∧
  (lines_have_ids st = true → lines_have_ids st' = true) ∧
  (cnt st = 0 → substring 0 2 line = "1 " → lines_have_ids st' = true).
Proof.
  intros Htab Hrep. unfold add_line. rewrite Htab, Hrep. simpl.
  split; [|split; [|split]].
  - by repeat (case_match; simpl).
  - by repeat (case_match; simpl).
  - intros ->. by repeat (case_match; simpl).
  - intros -> ->. done.
Qed.

Lemma fold_add_line_plain (pre : list string) (st : state) :
  Forall (fun x => contains tab x = false) pre →
  cands_are_replies st = false →
  let st' := fold_left add_line pre st in
  cands_are_replies st' = false ∧ cnt st' = cnt st + length pre ∧
  (lines_have_ids st = true → lines_have_ids st' = true) ∧
  (cnt st = 0 → substring 0 2 (hd "" pre) = "1 " → pre ≠ [] →
   lines_have_ids st' = true).
Proof.
  revert st. induction pre as [|l pre IH]; intros st Hpre Hrep; simpl.
  - repeat split; try done; lia.
  - apply Forall_cons in Hpre as [Hl Hpre].
    destruct (add_line_plain st l Hl Hrep) as (H1 & H2 & H3 & H4).
    destruct (IH (add_line st l) Hpre H1) as (I1 & I2 & I3 & I4).
    split; [done|]. split; [rewrite I2, H2; lia|]. split.
    + intros Hids. apply I3, H3, Hids.
    + intros Hc Hp _. apply I3, H4; done.
Qed.

(** The first line with a tab discards what was accumulated and switches
    a numbered file to reply form. *)
Lemma add_line_restart (st : state) (line : string) :
  contains tab line = true → cands_are_replies st = false →
  (lines_have_ids st = true ∨ (cnt st = 0 ∧ substring 0 2 line = "1 ")) →
  let st' := add_line st line in
  lines_have_ids st' = true ∧ cands_are_replies st' = true ∧
  cands st' = reply_of line.
Proof.
  intros Htab Hrep Hids. unfold add_line, reply_of, strip_id.
  rewrite Htab, Hrep. simpl.
  assert ((if (cnt st + 1 =? 1) && String.eqb (substring 0 2 line) "1 "
           then true else lines_have_ids st) = true) as ->.
  { destruct Hids as [->|[-> ->]]; [by case_match|done]. }
  destruct (split tab _) as [|? [|f ?]]; simpl; try done.
  by destruct (String.eqb f "").
Qed.

(** Where the code does what is claimed: in a numbered file (its first
    non-empty line starts with "1 "), the first line holding a tab discards
    the candidates read so far, and from that line on every non-empty line,
    its number prefix removed, contributes the field after its first tab
    when that field is not empty, and nothing otherwise.  The two lines
    "1 hi<TAB>there" and "2 yo<TAB>buddy" give the candidates "there" and
    "buddy". *)
Theorem load_cands_numbered_replies (lines pre post : list string) (l : string) :
  lines_of lines = pre ++ l :: post →
  substring 0 2 (hd "" (lines_of lines)) = "1 " →
  Forall (fun x => contains tab x = false) pre →
  contains tab l = true →
  load_cands (Some lines) = Some (flat_map reply_of (l :: post)) ∧
  load_cands (Some scenario4) = Some ["there"; "buddy"].
Proof.
  intros Hsplit Hfirst Hpre Htab. split; [|reflexivity].
  unfold load_cands. f_equal.
  rewrite fold_step_lines_of, Hsplit, fold_left_app. simpl.
  rewrite Hsplit in Hfirst.
  destruct (fold_add_line_plain pre init Hpre eq_refl) as (P1 & P2 & _ & P4).
  destruct (add_line_restart (fold_left add_line pre init) l Htab P1)
    as (R1 & R2 & R3).
  { destruct pre as [|p pre]; [right; split; [done|exact Hfirst]|].
    left. apply P4; done. }
  rewrite fold_add_line_reply, R3 by done. done.
Qed.

Lemma load_cands_numbered_replies_witness :
  load_cands (Some scenario4) = Some (flat_map reply_of (lines_of scenario4)) ∧
  load_cands (Some scenario4) = Some ["there"; "buddy"].
Proof.
  apply (load_cands_numbered_replies scenario4 []
           [("2 yo" +:+ String tab "buddy")%string] ("1 hi" +:+ String tab "there")).
  - reflexivity.
  - reflexivity.
  - constructor.
  - reflexivity.
Defined.

(** C8: the code departs from the claim on a file that is not numbered.
    On the single line "hi<TAB>there" [load_cands] does see the tab: it
    sets [cands_are_replies], having emptied the candidates read so far.
    But it splits on tabs only under [lines_have_ids], which stays off, so
    the line is returned whole, tab included, where the claim, and the
    comment above the branch, give the reply "there".  The same two fields
    behind a number, "1 hi<TAB>there", do give "there". *)
Lemma load_cands_unnumbered_keeps_line :
  load_cands (Some unnumbered) = Some ["hi" +:+ String tab "there"] ∧
  load_cands (Some unnumbered) ≠ Some ["there"] ∧
  cands_are_replies (fold_left step unnumbered init) = true ∧
  lines_have_ids (fold_left step unnumbered init) = false ∧
  load_cands (Some ["1 hi" +:+ String tab "there" +:+ String newline ""])
  = Some ["there"].
Proof. split; [reflexivity|]. split; [discriminate|]. by vm_compute. Qed.

End CandidatesFacts.

(** ** Facts about the stable sort *)

Module StableSortFacts.
Import StableSort.

Section Insert.
Context {A : Type} (before : A → A → bool).

Lemma insert_perm (x : A) (l : list A) : insert before x l ≡ₚ x :: l.
Proof.
  induction l as [|y l IH]; simpl; [done|].
  destruct (before x y); [done|].
  rewrite IH. apply Permutation_swap.
Qed.

Lemma sort_perm (l : list A) : sort before l ≡ₚ l.
Proof.
  induction l as [|x l IH]; simpl; [done|].
  unfold sort in IH. by rewrite insert_perm, IH.
Qed.

(** Inserting [x] into a list ordered by [R] keeps it ordered when [x]
    relates to the items it passes and to the items it stops before. *)
Lemma insert_sorted (R : A → A → Prop) (x : A) (l : list A) :
  StronglySorted R l →
  (∀ y, y ∈ l → before x y = false → R y x) →
  (∀ y, y ∈ l → before x y = true → R x y) →
  (∀ y z, y ∈ l → z ∈ l → before x y = true → R y z → R x z) →
  StronglySorted R (insert before x l).
Proof.
  induction l as [|y l IH]; intros Hs H1 H2 H3; simpl.
  - repeat constructor.
  - apply StronglySorted_cons in Hs as [Hy Hs].
    destruct (before x y) eqn:E.
    + apply StronglySorted_cons. split.
      * apply Forall_cons. split; [apply H2; [left|done]|].
        apply Forall_forall. intros z Hz.
        apply (H3 y z); [left|by right|done|].
        by eapply Forall_forall in Hy.
      * by apply StronglySorted_cons.
    + apply StronglySorted_cons. split.
      * rewrite insert_perm. apply Forall_cons. split; [|done].
        apply H1; [left|done].
      * apply IH; [done|..].
        -- intros z Hz. apply H1. by right.
        -- intros z Hz. apply H2. by right.
        -- intros z w Hz Hw. apply H3; by right.
Qed.
End Insert.

Section Keyed.
Context {K : Type} (le : K → K → bool).
Hypothesis le_total : ∀ a b, le a b = true ∨ le b a = true.
Hypothesis le_trans : ∀ a b c, le a b = true → le b c = true → le a c = true.

Lemma sort_keyed_sorted (l : list (nat * K)) :
  StronglySorted (fun a b => fst a < fst b) l →
  StronglySorted (stable_order le) (sort (fun a b => le (snd a) (snd b)) l).
Proof.
  induction l as [|x l IH]; intros Hs; simpl; [constructor|].
  apply StronglySorted_cons in Hs as [Hx Hs].
  assert (Hlt : ∀ y, y ∈ sort (fun a b => le (snd a) (snd b)) l → fst x < fst y).
  { intros y Hy. rewrite sort_perm in Hy. by eapply Forall_forall in Hx. }
  apply insert_sorted; [by apply IH|..].
  - intros y Hy E. split.
    + destruct (le_total (snd x) (snd y)) as [H|H]; [congruence|done].
    + intros H. congruence.
  - intros y Hy E. split; [done|]. intros _. by apply Hlt.
  - intros y z Hy Hz E [Hyz _]. split; [by eapply le_trans|].
    intros _. by apply Hlt.
Qed.

Lemma zip_seq_sorted (keys : list K) (start : nat) :
  StronglySorted (fun a b : nat * K => fst a < fst b)
                 (zip (seq start (length keys)) keys).
Proof.
  revert start. induction keys as [|k keys IH]; intros start; simpl.
  - constructor.
  - apply StronglySorted_cons. split; [|apply IH].
    apply Forall_forall. intros [i k'] Hin. simpl.
    apply elem_of_zip_l in Hin. apply elem_of_seq in Hin. lia.
Qed.

Lemma zip_seq_lookup (keys : list K) (start : nat) (p : nat * K) :
  p ∈ zip (seq start (length keys)) keys →
  start ≤ fst p ∧ keys !! (fst p - start) = Some (snd p).
Proof.
  revert start. induction keys as [|k keys IH]; intros start; simpl.
  - by intros ?%elem_of_nil.
  - intros [->|Hin]%elem_of_cons; simpl.
    + by rewrite Nat.sub_diag.
    + apply IH in Hin as [Hle Hl]. split; [lia|].
      replace (fst p - start) with (S (fst p - S start)) by lia. done.
Qed.

Lemma argsort_perm (keys : list K) :
  argsort le keys ≡ₚ seq 0 (length keys).
Proof.
  unfold argsort. rewrite sort_perm.
  change (map fst ?l) with (l.*1).
  rewrite fst_zip; [done|]. by rewrite length_seq.
Qed.

Lemma argsort_length (keys : list K) :
  length (argsort le keys) = length keys.
Proof. by rewrite argsort_perm, length_seq. Qed.

Lemma argsort_sorted (keys : list K) :
  StronglySorted (index_order le keys) (argsort le keys).
Proof.
  unfold argsort.
  pose proof (sort_keyed_sorted _ (zip_seq_sorted keys 0)) as Hs.
  assert (Hin : Forall (fun p => keys !! fst p = Some (snd p))
                  (sort (fun a b => le (snd a) (snd b))
                        (zip (seq 0 (length keys)) keys))).
  { apply Forall_forall. intros p Hp. rewrite sort_perm in Hp.
    apply zip_seq_lookup in Hp as [_ Hp]. by rewrite Nat.sub_0_r in Hp. }
  induction Hs as [|p l Hs IH Hp]; simpl; [constructor|].
  apply Forall_cons in Hin as [Hp0 Hin].
  apply StronglySorted_cons. split; [|by apply IH].
  apply Forall_forall. intros j Hj.
  apply list_elem_of_fmap in Hj as (q & -> & Hq).
  eapply Forall_forall in Hp; [|done]. eapply Forall_forall in Hin; [|done].
  destruct Hp as [H1 H2]. by exists (snd p), (snd q).
Qed.
End Keyed.
End StableSortFacts.

(** ** Facts about bounded deques *)

Module DequeFacts.
Import Deque.

Section Facts.
Context {A : Type}.
Implicit Types (d : deque A) (p xs : list A).

Lemma extendleft_rev_cons d x p :
  extendleft d (rev (x :: p)) = appendleft (extendleft d (rev p)) x.
Proof. unfold extendleft. simpl. by rewrite fold_left_app. Qed.

Lemma removelast_take_full (n : nat) p :
  S n ≤ length p → removelast (take (S n) p) = take n p.
Proof.
  revert n. induction p as [|x p IH]; intros n Hn; simpl in *; [lia|].
  destruct n as [|n]; simpl.
  - by destruct p.
  - destruct p as [|y p]; simpl in *; [lia|].
    f_equal. apply (IH n). lia.
Qed.

(** Filling a bounded deque from the left with the reversed sequence
    keeps the head of the sequence: what falls off is its tail. *)
Lemma extendleft_rev_bounded (n : nat) p :
  extendleft (empty (Some n)) (rev p) = mkDeque (Some n) (take n p).
Proof.
  induction p as [|x p IH].
  - by rewrite take_nil.
  - rewrite extendleft_rev_cons, IH. unfold appendleft, is_full. simpl.
    destruct (n <=? length (take n p)) eqn:E.
    + apply Nat.leb_le in E. rewrite length_take in E.
      destruct n as [|n]; [done|].
      assert (Hlen : length (take (S n) p) = S n)
        by (rewrite length_take; lia).
      destruct (take (S n) p) eqn:Et; [done|].
      rewrite <- Et. f_equal. simpl. f_equal.
      apply removelast_take_full. lia.
    + apply Nat.leb_gt in E. rewrite length_take in E.
      f_equal. destruct n as [|n]; [lia|]. simpl. f_equal.
      rewrite !take_ge by lia. done.
Qed.

Lemma extendleft_rev_unbounded p :
  extendleft (empty None) (rev p) = mkDeque None p.
Proof.
  induction p as [|x p IH]; [done|].
  by rewrite extendleft_rev_cons, IH.
Qed.

(** Extending on the right loses nothing while the items fit. *)
Lemma extend_fits d xs :
  (∀ n, maxlen d = Some n → length (items d) + length xs ≤ n) →
  extend d xs = mkDeque (maxlen d) (items d ++ xs).
Proof.
  revert d. induction xs as [|x xs IH]; intros d Hfit.
  - destruct d. simpl. by rewrite app_nil_r.
  - unfold extend in *. simpl.
    assert (append d x = mkDeque (maxlen d) (items d ++ [x])) as ->.
    { unfold append, is_full. destruct (maxlen d) as [n|] eqn:E; [|done].
      specialize (Hfit n eq_refl). simpl in Hfit.
      destruct (n <=? length (items d)) eqn:E'; [|done].
      apply Nat.leb_le in E'. lia. }
    rewrite IH; simpl.
    + by rewrite <- app_assoc.
    + intros n Hn. specialize (Hfit n Hn). rewrite length_app. simpl in *. lia.
Qed.
End Facts.
End DequeFacts.

(** ** Facts about the agent *)

Module StarspaceFacts.
Import Deque StableSort Starspace Examples DequeFacts StableSortFacts.

Section State.
Context {mstate : Type}.
Implicit Types (a : @agent mstate) (evs : list event).

Lemma advance_0 a : advance 0 [] a = a.
Proof. destruct a. unfold advance. simpl. by rewrite Nat.add_0_r, app_nil_r. Qed.

Lemma advance_advance a d1 d2 evs1 evs2 :
  advance d2 evs2 (advance d1 evs1 a) = advance (d1 + d2) (evs1 ++ evs2) a.
Proof. unfold advance. simpl. by rewrite Nat.add_assoc, app_assoc. Qed.

Lemma draw_eq a : draw a = Some (rnd a (drawn a), advance 1 [] a).
Proof.
  unfold draw, set_drawn, advance.
  by rewrite Nat.add_1_r, app_nil_r.
Qed.

Lemma randint_eq a (lo hi : Z) :
  (lo ≤ hi)%Z →
  randint lo hi a =
    Some ((lo + Z.of_nat (rnd a (drawn a)) mod (hi - lo + 1))%Z, advance 1 [] a).
Proof.
  intros H. unfold randint.
  destruct (hi <? lo)%Z eqn:E; [apply Z.ltb_lt in E; lia|].
  unfold bind. by rewrite draw_eq.
Qed.

Lemma randint_empty a (lo hi : Z) : (hi < lo)%Z → randint lo hi a = None.
Proof. intros H. unfold randint. by apply Z.ltb_lt in H as ->. Qed.

Lemma cache_get_eq a (i : nat) (t : tensor) :
  ys_cache a !! i = Some t →
  cache_get i a = Some (t, advance 0 [CacheRead i] a).
Proof.
  intros H. unfold cache_get, set_cache, advance. rewrite H.
  by rewrite Nat.add_0_r.
Qed.

Lemma choice_eq {A} a (seq : list A) :
  seq ≠ [] →
  ∃ x, seq !! (rnd a (drawn a) mod length seq) = Some x ∧
       choice seq a = Some (x, advance 1 [] a).
Proof.
  intros Hne.
  destruct (lookup_lt_is_Some_2 seq (rnd a (drawn a) mod length seq)) as [x Hx].
  { apply Nat.mod_upper_bound. by destruct seq. }
  exists x. split; [done|].
  destruct seq; [done|]. unfold choice, bind. rewrite draw_eq.
  simpl in *. by rewrite Hx.
Qed.

Lemma choice_frame {A} a (seq : list A) (x : A) a' :
  choice seq a = Some (x, a') → a' = advance 1 [] a ∧ x ∈ seq.
Proof.
  intros H. destruct (decide (seq = [])) as [->|Hne]; [done|].
  destruct (choice_eq a seq Hne) as (y & Hy & Hc).
  rewrite Hc in H. injection H as <- <-.
  split; [done|]. by eapply list_elem_of_lookup_2.
Qed.

(** [choose_labels] draws once per example. *)
Lemma choose_labels_frame (exs : list observation) a chosen a' :
  choose_labels exs a = Some (chosen, a') →
  a' = advance (length exs) [] a ∧ length chosen = length exs.
Proof.
  revert a chosen a'. induction exs as [|ex exs IH]; intros a chosen a' H.
  - injection H as <- <-. by rewrite advance_0.
  - simpl in H. unfold bind in H.
    destruct (choice _ a) as [[y a1]|] eqn:Ec; [|done].
    apply choice_frame in Ec as [-> _].
    destruct (choose_labels exs _) as [[ys a2]|] eqn:Er; [|done].
    apply IH in Er as [-> Hlen]. injection H as <- <-.
    rewrite advance_advance. simpl. by rewrite Hlen.
Qed.

(** *** Negative sampling *)

Lemma drawn_slot_lt a (pos : nat) :
  0 < length (ys_cache a) → drawn_slot a pos < length (ys_cache a).
Proof.
  intros H. unfold drawn_slot.
  pose proof (Z.mod_pos_bound (Z.of_nat (rnd a pos))
                (Z.of_nat (length (ys_cache a)))). lia.
Qed.

Lemma hits_advance (ys : tensor) a d evs (pos n : nat) :
  hits ys (advance d evs a) pos n = hits ys a pos n.
Proof. revert pos. induction n as [|n IH]; intros pos; simpl; [done|]. by rewrite IH. Qed.

Lemma hits_le (ys : tensor) a (pos n : nat) : hits ys a pos n ≤ n.
Proof.
  revert pos. induction n as [|n IH]; intros pos; simpl; [done|].
  specialize (IH (S pos)). destruct (hit ys a pos); lia.
Qed.

(** One turn of the loop reads the slot the next draw selects. *)
Lemma sample_step a :
  2 ≤ length (ys_cache a) →
  ∃ t, ys_cache a !! drawn_slot a (drawn a) = Some t ∧
       bind (randint 0 (Z.of_nat (length (ys_cache a)) - 1))
            (fun index => cache_get (Z.to_nat index)) a =
         Some (t, advance 1 [CacheRead (drawn_slot a (drawn a))] a).
Proof.
  intros Hlen.
  destruct (lookup_lt_is_Some_2 (ys_cache a) (drawn_slot a (drawn a))) as [t Ht];
    [apply drawn_slot_lt; lia|].
  exists t. split; [done|].
  unfold bind. rewrite randint_eq by lia.
  replace (Z.to_nat _) with (drawn_slot a (drawn a)).
  - rewrite (cache_get_eq _ _ t) by done. by rewrite advance_advance.
  - unfold drawn_slot. f_equal. rewrite Z.add_0_l. f_equal. lia.
Qed.

Lemma sample_negs_spec (ys : tensor) (k fuel : nat) a (negs : list tensor) :
  2 ≤ length (ys_cache a) → length negs < k →
  ∃ idxs new,
    sample_negs ys (Z.of_nat (length (ys_cache a)) - 1) k fuel negs a =
      Some (negs ++ new, advance (length idxs) (map CacheRead idxs) a) ∧
    length idxs ≤ fuel ∧
    Forall (fun i => i < length (ys_cache a)) idxs ∧
    Forall (fun t => same ys t = false ∧ t ∈ ys_cache a) new ∧
    length (negs ++ new) = Nat.min k (length negs + hits ys a (drawn a) fuel).
Proof.
  revert a negs. induction fuel as [|fuel IH]; intros a negs Hlen Hk.
  - exists [], []. simpl. rewrite advance_0, app_nil_r.
    repeat split; try done. lia.
  - destruct (sample_step a Hlen) as (t & Ht & Hstep).
    assert (Hslot : drawn_slot a (drawn a) < length (ys_cache a))
      by (apply drawn_slot_lt; lia).
    assert (Hunfold : ∀ negs0,
      sample_negs ys (Z.of_nat (length (ys_cache a)) - 1) k (S fuel) negs0 a =
      (if negb (same ys t) then
         if k <=? length (negs0 ++ [t]) then ret (negs0 ++ [t])
         else sample_negs ys (Z.of_nat (length (ys_cache a)) - 1) k fuel (negs0 ++ [t])
       else sample_negs ys (Z.of_nat (length (ys_cache a)) - 1) k fuel negs0)
        (advance 1 [CacheRead (drawn_slot a (drawn a))] a)).
    { intros negs0. simpl. unfold bind in *.
      destruct (randint 0 _ a) as [[i a1]|]; [|done].
      destruct (cache_get _ a1) as [[t' a2]|]; [|done].
      by injection Hstep as -> ->. }
    rewrite Hunfold. simpl hits. unfold hit. rewrite Ht.
    set (a1 := advance 1 [CacheRead (drawn_slot a (drawn a))] a).
    destruct (same ys t) eqn:Es; simpl.
    + destruct (IH a1 negs Hlen Hk) as (idxs & new & Hr & Hf & Hi & Hn & Hc).
      exists (drawn_slot a (drawn a) :: idxs), new.
      subst a1. rewrite advance_advance in Hr. rewrite hits_advance in Hc.
      simpl in *. rewrite Nat.add_1_r in Hc.
      repeat split; try done; [lia|by constructor].
    + destruct (k <=? length (negs ++ [t])) eqn:Ek.
      * apply Nat.leb_le in Ek. rewrite length_app in Ek. simpl in Ek.
        exists [drawn_slot a (drawn a)], [t]. subst a1. simpl.
        repeat split; try done.
        -- lia.
        -- by repeat constructor.
        -- repeat constructor; [done|]. by eapply list_elem_of_lookup_2.
        -- rewrite length_app. simpl. lia.
      * apply Nat.leb_gt in Ek.
        destruct (IH a1 (negs ++ [t]) Hlen Ek) as (idxs & new & Hr & Hf & Hi & Hn & Hc).
        exists (drawn_slot a (drawn a) :: idxs), (t :: new).
        subst a1. rewrite advance_advance in Hr. rewrite hits_advance in Hc.
        rewrite <- app_assoc in Hr, Hc. simpl in *.
        rewrite Nat.add_1_r in Hc.
        repeat split; try done.
        -- lia.
        -- by constructor.
        -- constructor; [|done]. split; [done|]. by eapply list_elem_of_lookup_2.
        -- rewrite !length_app in *. simpl in *. lia.
Qed.

Lemma get_negs_small a (xs : option tensor) (ys : tensor) :
  length (ys_cache a) < 2 → get_negs xs ys a = Some ([], a).
Proof.
  intros H. unfold get_negs, bind, gets.
  destruct (_ <? 1)%Z eqn:E; [done|]. apply Z.ltb_ge in E. lia.
Qed.

Lemma get_negs_spec a (xs : option tensor) (ys : tensor) :
  2 ≤ length (ys_cache a) →
  ∃ idxs sampled,
    get_negs xs ys a =
      (fun negs => (negs, advance (length idxs) (map CacheRead idxs) a))
        <$> with_parrot a sampled ∧
    length idxs ≤ neg_samples a * 3 - 1 ∧
    Forall (fun i => i < length (ys_cache a)) idxs ∧
    Forall (fun t => same ys t = false ∧ t ∈ ys_cache a) sampled ∧
    length sampled =
      Nat.min (neg_samples a) (hits ys a (drawn a) (neg_samples a * 3 - 1)).
Proof.
  intros Hlen.
  assert (∃ idxs sampled,
    sample_negs ys (Z.of_nat (length (ys_cache a)) - 1) (neg_samples a)
                (neg_samples a * 3 - 1) [] a =
      Some (sampled, advance (length idxs) (map CacheRead idxs) a) ∧
    length idxs ≤ neg_samples a * 3 - 1 ∧
    Forall (fun i => i < length (ys_cache a)) idxs ∧
    Forall (fun t => same ys t = false ∧ t ∈ ys_cache a) sampled ∧
    length sampled =
      Nat.min (neg_samples a) (hits ys a (drawn a) (neg_samples a * 3 - 1)))
    as (idxs & sampled & Hs & Hrest).
  { destruct (neg_samples a) as [|k] eqn:Ek.
    - exists [], []. simpl. rewrite advance_0. repeat split; done.
    - destruct (sample_negs_spec ys (S k) (S k * 3 - 1) a [] Hlen)
        as (idxs & new & H); [simpl; lia|].
      exists idxs, new. exact H. }
  exists idxs, sampled. split; [|exact Hrest].
  unfold get_negs, bind, gets.
  destruct (_ <? 1)%Z eqn:E; [apply Z.ltb_lt in E; lia|].
  rewrite Hs. unfold with_parrot. simpl.
  destruct (0 <? parrot_neg a)%Z; [|done]. simpl.
  destruct (last_utterance a) as [utt|]; simpl; [|done].
  by destruct (2 <? length utt).
Qed.

(** What [same] takes for different is different. *)
Lemma zero_diff_sum (l1 l2 : list Z) :
  (foldr Z.add 0 (zip_with (fun x y => Z.abs (x - y)) l1 l2) < 1)%Z →
  foldr Z.add 0%Z (tensor_sub l1 l2) = 0%Z.
Proof.
  assert (Hpos : ∀ l1 l2 : list Z,
    (0 ≤ foldr Z.add 0 (zip_with (fun x y => Z.abs (x - y)) l1 l2))%Z).
  { clear. induction l1 as [|x l1 IH]; intros [|y l2]; simpl; try lia.
    specialize (IH l2). lia. }
  revert l2. induction l1 as [|x l1 IH]; intros [|y l2]; simpl; try done.
  intros H. specialize (Hpos l1 l2).
  assert (x - y = 0)%Z as -> by lia.
  rewrite IH by lia. done.
Qed.

Lemma num_equal_same (y1 y2 : tensor) :
  num_equal y1 y2 = true → same y1 y2 = true.
Proof.
  unfold num_equal, same. intros [Hl Hs]%andb_true_iff.
  rewrite Hl. simpl. apply Z.ltb_lt in Hs.
  unfold tensor_sum. by rewrite zero_diff_sum.
Qed.

(** C1 (as amended): with self-as-negative off and a cache of at least
    [k + 1] entries, [get_negs] returns at most [k] negatives, each an
    entry of the cache that is not numerically equal to [ys], after at
    most [3k - 1] draws (so at most [3k]); it returns exactly as many as
    the smaller of [k] and the number of those draws that land on an
    entry [same] tells apart from [ys]. *)
Theorem get_negs_bounded a (xs : option tensor) (ys : tensor) :
  (parrot_neg a ≤ 0)%Z →
  neg_samples a + 1 ≤ length (ys_cache a) →
  ∃ negs a',
    get_negs xs ys a = Some (negs, a') ∧
    length negs ≤ neg_samples a ∧
    Forall (fun t => num_equal ys t = false ∧ t ∈ ys_cache a) negs ∧
    drawn a' - drawn a ≤ neg_samples a * 3 - 1 ∧
    drawn a' - drawn a ≤ 3 * neg_samples a ∧
    length negs =
      Nat.min (neg_samples a) (hits ys a (drawn a) (neg_samples a * 3 - 1)).
Proof.
  intros Hp Hk.
  destruct (decide (length (ys_cache a) < 2)) as [Hs|Hs].
  - exists [], a. rewrite get_negs_small by done.
    assert (neg_samples a = 0) as -> by lia. simpl.
    repeat split; try done; lia.
  - destruct (get_negs_spec a xs ys) as (idxs & sampled & Hg & Hi & _ & Hn & Hc);
      [lia|].
    unfold with_parrot in Hg.
    destruct (0 <? parrot_neg a)%Z eqn:E; [apply Z.ltb_lt in E; lia|].
    exists sampled, (advance (length idxs) (map CacheRead idxs) a).
    simpl. repeat split; try done; try lia.
    eapply Forall_impl; [exact Hn|]. intros t [Hsame Hin]. split; [|done].
    destruct (num_equal ys t) eqn:En; [|done].
    apply num_equal_same in En. congruence.
Qed.

(** *** The cache *)

(** C2: with a capacity [C] of at least one slot and a cache within it,
    [add_to_ys_cache] leaves the agent as it is when the target is
    [None] or has no row; otherwise the cache afterwards holds
    [min C (size + 1)] entries: the target is appended while the cache
    is short of [C], and once it is full the target overwrites the slot
    [randint(0, C - 1)] selects, which lies in [0, C) and is the drawn
    number itself whenever that is below [C]. *)
Theorem add_to_ys_cache_spec a (ys : option tensor) :
  (0 < ys_cache_sz a)%Z →
  (Z.of_nat (length (ys_cache a)) ≤ ys_cache_sz a)%Z →
  (ys = None ∨ ys = Some [] → add_to_ys_cache ys a = Some (tt, a)) ∧
  (∀ y, ys = Some y → y ≠ [] →
     ∃ a', add_to_ys_cache ys a = Some (tt, a') ∧
       Z.of_nat (length (ys_cache a')) =
         Z.min (ys_cache_sz a) (Z.of_nat (length (ys_cache a)) + 1) ∧
       ((Z.of_nat (length (ys_cache a)) < ys_cache_sz a)%Z →
          ys_cache a' = ys_cache a ++ [y] ∧ drawn a' = drawn a) ∧
       (Z.of_nat (length (ys_cache a)) = ys_cache_sz a →
          ∃ slot,
            slot = Z.to_nat (Z.of_nat (rnd a (drawn a)) mod ys_cache_sz a) ∧
            (Z.of_nat slot < ys_cache_sz a)%Z ∧
            ((Z.of_nat (rnd a (drawn a)) < ys_cache_sz a)%Z → slot = rnd a (drawn a)) ∧
            ys_cache a' = <[slot := y]> (ys_cache a) ∧
            ys_cache a' !! slot = Some y)).
Proof.
  intros Hsz Hinv. split.
  - by intros [->| ->].
  - intros y -> Hy. unfold add_to_ys_cache.
    destruct (length y =? 0) eqn:E0.
    { apply Nat.eqb_eq in E0. by destruct y. }
    unfold bind, gets.
    destruct (Z.of_nat (length (ys_cache a)) <? ys_cache_sz a)%Z eqn:E.
    + apply Z.ltb_lt in E. eexists. split; [reflexivity|]. simpl.
      rewrite length_app. simpl. repeat split; try lia.
    + apply Z.ltb_ge in E. rewrite randint_eq by lia.
      set (slot := Z.to_nat (0 + Z.of_nat (rnd a (drawn a)) mod (ys_cache_sz a - 1 - 0 + 1))).
      assert (Hslot : slot = Z.to_nat (Z.of_nat (rnd a (drawn a)) mod ys_cache_sz a)).
      { subst slot. f_equal. rewrite Z.add_0_l. f_equal. lia. }
      pose proof (Z.mod_pos_bound (Z.of_nat (rnd a (drawn a))) (ys_cache_sz a) Hsz).
      unfold cache_set. simpl.
      assert (slot < length (ys_cache a)) as Hlt by lia.
      apply Nat.ltb_lt in Hlt as Hlt'. rewrite Hlt'.
      eexists. split; [reflexivity|]. simpl. rewrite length_insert.
      repeat split; try lia.
      intros _. exists slot. repeat split; try done; try lia.
      * intros Hr. rewrite Hslot, Z.mod_small by lia. lia.
      * by apply list_lookup_insert_eq.
Qed.

End State.

Lemma get_negs_bounded_witness :
  ∃ negs a',
    get_negs None [[1; 2]]%Z (agent_of None 2 3 cache3 (fun n => n)) = Some (negs, a') ∧
    length negs ≤ 2 ∧
    Forall (fun t => num_equal [[1; 2]]%Z t = false ∧ t ∈ cache3) negs ∧
    drawn a' - 0 ≤ 2 * 3 - 1 ∧
    drawn a' - 0 ≤ 3 * 2 ∧
    length negs =
      Nat.min 2 (hits [[1; 2]]%Z (agent_of None 2 3 cache3 (fun n => n)) 0 (2 * 3 - 1)).
Proof.
  apply (get_negs_bounded (agent_of None 2 3 cache3 (fun n => n)) None [[1; 2]]%Z).
  - simpl. lia.
  - simpl. lia.
Defined.

(** C1, as stated, fails: the cache holds three entries, two of them not
    equal to the target, [k] is 2, and every draw lands on the entry that
    equals the target; no negative is returned. *)
Lemma get_negs_may_fall_short :
  let a := agent_of None 2 3 cache3 (fun _ => 0) in
  let ys := [[1; 2]]%Z in
  neg_samples a + 1 ≤ length (ys_cache a) ∧
  neg_samples a ≤ length (List.filter (fun t => negb (num_equal ys t)) (ys_cache a)) ∧
  ∃ negs, fst <$> get_negs None ys a = Some negs ∧ length negs ≠ neg_samples a.
Proof.
  split; [vm_compute; lia|]. split; [vm_compute; lia|].
  exists []. split; [reflexivity|discriminate].
Qed.

Lemma add_to_ys_cache_spec_witness :
  let a := agent_of None 2 3 cache3 (fun n => n + 1) in
  (Some [[9]]%Z = None ∨ Some [[9]]%Z = Some [] →
     add_to_ys_cache (Some [[9]]%Z) a = Some (tt, a)) ∧
  (∀ y, Some [[9]]%Z = Some y → y ≠ [] →
     ∃ a', add_to_ys_cache (Some [[9]]%Z) a = Some (tt, a') ∧
       Z.of_nat (length (ys_cache a')) = Z.min 3 (Z.of_nat 3 + 1) ∧
       ((Z.of_nat 3 < 3)%Z → ys_cache a' = cache3 ++ [y] ∧ drawn a' = 0) ∧
       (Z.of_nat 3 = 3%Z →
          ∃ slot,
            slot = Z.to_nat (Z.of_nat 1 mod 3) ∧
            (Z.of_nat slot < 3)%Z ∧
            ((Z.of_nat 1 < 3)%Z → slot = 1) ∧
            ys_cache a' = <[slot := y]> cache3 ∧
            ys_cache a' !! slot = Some y)).
Proof.
  apply (add_to_ys_cache_spec (agent_of None 2 3 cache3 (fun n => n + 1))
           (Some [[9]]%Z)).
  - simpl. lia.
  - simpl. lia.
Defined.

(** *** Vectorizing *)

Lemma max_len_ge {A} (rows : list (list A)) (r : list A) :
  r ∈ rows → length r ≤ max_len rows.
Proof.
  unfold max_len. induction rows as [|x rows IH]; [by intros ?%elem_of_nil|].
  intros [->|Hin]%elem_of_cons; simpl; [lia|].
  specialize (IH Hin). lia.
Qed.

Lemma max_len_le {A} (rows : list (list A)) (n : nat) :
  Forall (fun r => length r ≤ n) rows → max_len rows ≤ n.
Proof.
  unfold max_len. induction 1 as [|x rows Hx _ IH]; simpl; lia.
Qed.

Lemma rectangular_same_length {A} (rows : list (list A)) (n : nat) :
  Forall (fun r => length r = n) rows → rectangular rows = true.
Proof.
  intros H. unfold rectangular. apply forallb_forall. intros r Hr.
  apply Nat.eqb_eq. destruct rows as [|r0 rows]; [done|].
  apply Forall_cons in H as H0. destruct H0 as [<- _].
  rewrite Forall_forall in H. apply H. by apply list_elem_of_In.
Qed.

Lemma LongTensor_indices (rows : list (list Z)) (t : tensor) :
  LongTensor (map (map Idx) rows) = Some t → t = rows.
Proof.
  unfold LongTensor. destruct (rectangular _); [|done].
  change (map (map Idx) rows) with ((fmap (M := list) Idx) <$> rows).
  rewrite mapM_fmap_Some; [congruence|].
  intros r. by apply mapM_fmap_Some.
Qed.

Lemma LongTensor_length (rows : list (list item)) (t : tensor) :
  LongTensor rows = Some t → length t = length rows.
Proof.
  unfold LongTensor. destruct (rectangular _); [|done].
  intros H. by apply length_mapM in H.
Qed.

Section Labels.
Variable parse : string → list Z.

Lemma label_rows_bounded (n : nat) (chosen : list string) :
  label_rows parse (Some n) chosen = map (leading_row parse n chosen) chosen.
Proof.
  unfold label_rows.
  assert (Hp : map (parse_label parse (Some n)) chosen
               = map (fun y => mkDeque (Some n) (take n (parse y))) chosen).
  { apply map_ext. intros y. apply extendleft_rev_bounded. }
  rewrite Hp, !map_map. simpl.
  apply map_ext_in. intros y Hy.
  unfold pad_y, leading_row. rewrite extend_fits; [done|]. simpl.
  intros ? [= <-]. rewrite length_replicate.
  assert (max_len (map (fun y => take n (parse y)) chosen) ≤ n).
  { apply max_len_le, Forall_forall. intros r Hr.
    apply list_elem_of_In, in_map_iff in Hr as (y' & <- & _).
    rewrite length_take. lia. }
  assert (length (take n (parse y)) ≤ max_len (map (fun y => take n (parse y)) chosen)).
  { apply max_len_ge, list_elem_of_In, in_map_iff. by exists y. }
  lia.
Qed.
End Labels.

Lemma omap_ext_in {A B} (f g : A → option B) (l : list A) :
  (∀ x, x ∈ l → f x = g x) → omap f l = omap g l.
Proof.
  induction l as [|x l IH]; intros H; [done|].
  assert (IH' : omap f l = omap g l).
  { apply IH. intros y Hy. apply H. by right. }
  simpl. rewrite (H x) by left.
  destruct (g x); [f_equal|]; exact IH'.
Qed.

Lemma select_seq_from {A} (l : list A) (start : nat) :
  omap (fun k => l !! (k - start)) (seq start (length l)) = l.
Proof.
  revert start. induction l as [|x l IH]; intros start; simpl; [done|].
  rewrite Nat.sub_diag. simpl. f_equal.
  rewrite <- (IH (S start)) at 2. apply omap_ext_in.
  intros k Hk%elem_of_seq.
  by replace (k - start) with (S (k - S start)) by lia.
Qed.

Lemma select_perm {A} (inds : list nat) (l : list A) :
  inds ≡ₚ seq 0 (length l) → select inds l ≡ₚ l.
Proof.
  intros H. unfold select. rewrite H.
  assert (E : omap (fun k => l !! k) (seq 0 (length l)) = l).
  { etrans; [|apply (select_seq_from l 0)].
    apply omap_ext_in. intros k _. simpl. by rewrite Nat.sub_0_r. }
  by rewrite E.
Qed.

Section Vectorize.
Context {mstate : Type}.
Variable parse : string → list Z.
Implicit Types (a : @agent mstate) (obs : list observation).

(** Sorting keeps every valid example, each with its position. *)
Lemma sorted_examples_perm obs : sorted_examples obs ≡ₚ valid_examples obs.
Proof.
  unfold sorted_examples, ind_sorted. apply select_perm.
  rewrite argsort_perm. by rewrite !length_map.
Qed.

Lemma sorted_examples_nonempty obs :
  valid_examples obs ≠ [] → sorted_examples obs ≠ [].
Proof.
  intros H E. apply H. apply Permutation_nil_r.
  by rewrite <- E, sorted_examples_perm.
Qed.

(** The batches [vectorize] can return. *)
Lemma vectorize_inv obs a (b : batch) a' :
  vectorize parse obs a = Some (b, a') →
  (valid_examples obs = [] ∧ b = mkBatch None None None None ∧ a' = a) ∨
  (valid_examples obs ≠ [] ∧
   ∃ x, LongTensor (padded_x (map snd (sorted_examples obs))) = Some x ∧
        xs b = Some x ∧
        ((ys b = None ∧ a' = a ∧
          cands b = Some (map fst (map (candidates parse) obs)) ∧
          cands_txt b = Some (map snd (map (candidates parse) obs))) ∨
         (∃ chosen t,
            choose_labels (map snd (sorted_examples obs)) a = Some (chosen, a') ∧
            LongTensor (map (map Idx) (label_rows parse (truncate a) chosen)) = Some t ∧
            ys b = Some t ∧ cands b = Some [] ∧ cands_txt b = Some []))).
Proof.
  unfold vectorize. intros H.
  destruct (valid_examples obs) as [|p l] eqn:Ev.
  { left. by injection H as <- <-. }
  right. split; [done|].
  unfold bind, lift in H.
  destruct (LongTensor (padded_x _)) as [x|]; [|done].
  exists x. split; [done|]. simpl in H.
  destruct (existsb _ _).
  - destruct (choose_labels _ a) as [[chosen a1]|] eqn:Ec; [|done].
    apply choose_labels_frame in Ec as Hf. destruct Hf as [-> _].
    simpl in H.
    destruct (LongTensor (map (map Idx) _)) as [t|] eqn:Et; [|done].
    simpl in H. injection H as <- <-. simpl.
    split; [done|]. right. by exists chosen, t.
  - simpl in H. injection H as <- <-. simpl. split; [done|]. by left.
Qed.

Lemma vectorize_frame obs a (b : batch) a' :
  vectorize parse obs a = Some (b, a') → ∃ d, a' = advance d [] a.
Proof.
  intros [(_ & _ & ->)|(_ & x & _ & _ & [(_ & -> & _)|(chosen & t & Hc & _)])]%vectorize_inv.
  - exists 0. by rewrite advance_0.
  - exists 0. by rewrite advance_0.
  - apply choose_labels_frame in Hc as [-> _]. by eexists.
Qed.

(** A target tensor comes with an input tensor and has a row for each
    valid example, so at least one. *)
Lemma vectorize_target obs a (b : batch) a' (t : tensor) :
  vectorize parse obs a = Some (b, a') → ys b = Some t →
  t ≠ [] ∧ is_Some (xs b).
Proof.
  intros [(_ & -> & _)|(Hne & x & _ & Hx & [(Hn & _)|(chosen & t' & Hc & Ht & Hy & _)])]%vectorize_inv Hys.
  - done.
  - congruence.
  - split; [|by rewrite Hx].
    rewrite Hy in Hys. injection Hys as ->.
    apply LongTensor_length in Ht. apply choose_labels_frame in Hc as [_ Hc].
    apply sorted_examples_nonempty in Hne.
    unfold label_rows in Ht. cbv zeta in Ht.
    rewrite !length_map in Ht. rewrite length_map in Hc.
    destruct (sorted_examples obs); [done|].
    destruct t; [|done]. simpl in *. lia.
Qed.

(** [vectorize] returns only on batches whose valid contexts all have
    one length: a shorter context is padded with lists, which
    [torch.LongTensor] does not take. *)
Lemma vectorize_needs_equal_lengths obs a (b : batch) a' :
  vectorize parse obs a = Some (b, a') →
  ∃ n, Forall (fun p => length (default [] (text2vec (snd p))) = n)
              (valid_examples obs).
Proof.
  intros [(-> & _)|(_ & x & Hx & _)]%vectorize_inv.
  { exists 0. constructor. }
  set (exs := map snd (sorted_examples obs)) in *.
  exists (max_len (map (fun ex => default [] (text2vec ex)) exs)).
  rewrite <- sorted_examples_perm.
  apply Forall_forall. intros p Hp.
  unfold LongTensor in Hx. destruct (rectangular _); [|done].
  assert (Hs : is_Some (mapM (mapM index_of) (padded_x exs))) by (by eexists).
  apply mapM_is_Some_1 in Hs. rewrite Forall_forall in Hs.
  assert (Hex : snd p ∈ exs).
  { subst exs. apply list_elem_of_In, in_map, list_elem_of_In, Hp. }
  specialize (Hs (pad_x (max_len (map (fun ex => default [] (text2vec ex)) exs))
                        (default [] (text2vec (snd p))))).
  destruct Hs as [r Hr].
  { unfold padded_x. apply list_elem_of_In, in_map_iff.
    exists (default [] (text2vec (snd p))). split; [done|].
    apply in_map_iff. exists (snd p). split; [done|]. by apply list_elem_of_In. }
  assert (Hle : length (default [] (text2vec (snd p)))
                ≤ max_len (map (fun ex => default [] (text2vec ex)) exs)).
  { apply max_len_ge, list_elem_of_In, in_map_iff. exists (snd p).
    split; [done|]. by apply list_elem_of_In. }
  assert (Hrow : is_Some (mapM index_of
            (pad_x (max_len (map (fun ex => default [] (text2vec ex)) exs))
                   (default [] (text2vec (snd p)))))) by (by eexists).
  apply mapM_is_Some_1 in Hrow. unfold pad_x in Hrow.
  destruct (max_len _ - length _) as [|k] eqn:Ek; [lia|].
  apply Forall_app in Hrow as [_ Hrow]. simpl in Hrow.
  apply Forall_cons in Hrow as [[? Hn] _]. done.
Qed.

(** C3 (as amended): when an example carries labels and a length cap
    [n] is configured, the row of each selected label holds the leading
    [n] tokens of the label (tokens are dropped from the right), then
    the padding. *)
Theorem vectorize_label_keeps_leading obs a (b : batch) a' (n : nat) (t : tensor) :
  truncate a = Some n →
  vectorize parse obs a = Some (b, a') →
  ys b = Some t →
  ∃ chosen,
    fst <$> choose_labels (map snd (sorted_examples obs)) a = Some chosen ∧
    length chosen = length (sorted_examples obs) ∧
    t = map (leading_row parse n chosen) chosen ∧
    Forall2 (fun row y => take (Nat.min n (length (parse y))) row = take n (parse y))
            t chosen.
Proof.
  intros Htr [(_ & -> & _)|(Hne & x & _ & Hx & [(Hn & _)|(chosen & t' & Hc & Ht & Hy & _)])]%vectorize_inv Hys.
  - done.
  - congruence.
  - rewrite Hy in Hys. injection Hys as ->.
    exists chosen. rewrite Hc. split; [done|].
    apply choose_labels_frame in Hc as [_ Hc]. rewrite length_map in Hc.
    split; [done|].
    rewrite Htr in Ht. apply LongTensor_indices in Ht.
    rewrite label_rows_bounded in Ht. split; [done|].
    subst t. apply Forall2_fmap_l, Forall_Forall2_diag, Forall_forall.
    intros y _. unfold leading_row. simpl.
    rewrite take_app_le by (rewrite length_take; lia).
    rewrite take_take.
    destruct (decide (n ≤ length (parse y))).
    + f_equal. lia.
    + rewrite !take_ge by lia. done.
Qed.
End Vectorize.

Lemma vectorize_label_keeps_leading_witness :
  ∃ chosen,
    fst <$> choose_labels (map snd (sorted_examples [labelled]))
                          (agent_of (Some 2) 2 3 [] (fun _ => 0)) = Some chosen ∧
    length chosen = length (sorted_examples [labelled]) ∧
    [[1; 2]]%Z = map (leading_row abc 2 chosen) chosen ∧
    Forall2 (fun row y => take (Nat.min 2 (length (abc y))) row = take 2 (abc y))
            [[1; 2]]%Z chosen.
Proof.
  apply (vectorize_label_keeps_leading abc [labelled]
           (agent_of (Some 2) 2 3 [] (fun _ => 0))
           (mkBatch (Some [[5]]%Z) (Some [[1; 2]]%Z) (Some []) (Some []))
           (advance 1 [] (agent_of (Some 2) 2 3 [] (fun _ => 0)))
           2 [[1; 2]]%Z).
  - reflexivity.
  - reflexivity.
  - reflexivity.
Defined.

(** C3, as stated, fails: a label of tokens 1, 2, 3 under a cap of two
    becomes the row 1, 2; the trailing tokens would be 2, 3. *)
Lemma vectorize_label_drops_tail :
  (fun r => ys (fst r)) <$>
    vectorize abc [labelled] (agent_of (Some 2) 2 3 [] (fun _ => 0))
    = Some (Some [[1; 2]]%Z) ∧
  abc "a b c" = [1; 2; 3]%Z ∧
  [[1; 2]]%Z ≠ [drop (3 - 2) [1; 2; 3]%Z].
Proof. split; [reflexivity|]. split; [reflexivity|discriminate]. Qed.

(** C6: on contexts of different lengths the shorter row is filled with
    one-element lists, not with the null index, and [torch.LongTensor]
    rejects the rows: no input tensor is built. *)
Theorem vectorize_unequal_contexts_raise :
  padded_x (map snd (sorted_examples two_lengths))
    = [[Idx 1; Idx 2]; [Idx 3; Nested [NULL_IDX]]] ∧
  LongTensor (padded_x (map snd (sorted_examples two_lengths))) = None ∧
  vectorize abc two_lengths (agent_of None 2 3 [] (fun _ => 0)) = None.
Proof. repeat split; reflexivity. Qed.

(** C4: a batch of two observations gets a reply list of one entry. *)
Theorem batch_act_two_observations_one_reply :
  fst <$> batch_act0 two_plain (agent_of None 2 3 [] (fun _ => 0))
    = Some [empty_reply] ∧
  length two_plain = 2 ∧
  length [empty_reply (loss_t := unit)] = 1.
Proof. repeat split; reflexivity. Qed.

(** *** The training and inference step *)

Section Engine.
Context {mstate score loss_t : Type}.
Variable parse : string → list Z.
Variable similarity : mstate → tensor → tensor → score.
Variable score_geb : score → score → bool.
Variable criterion : mstate → tensor → tensor → list tensor → loss_t.
Variable optimizer_step : mstate → tensor → tensor → list tensor → mstate.
Implicit Types (a : @agent mstate) (obs : list observation).

Abbreviation predict := (predict similarity score_geb criterion optimizer_step).
Abbreviation batch_act := (batch_act parse similarity score_geb criterion optimizer_step).
Abbreviation reply := (@reply loss_t).
#[local] Arguments add_to_ys_cache : simpl never.
#[local] Arguments get_negs : simpl never.

(** Sampling reads the cache and draws numbers; it changes nothing
    else. *)
Lemma get_negs_inv a (xs : option tensor) (ys : tensor) (negs : list tensor) a' :
  get_negs xs ys a = Some (negs, a') →
  ∃ idxs, a' = advance (length idxs) (map CacheRead idxs) a ∧
          Forall (fun i => i < length (ys_cache a)) idxs ∧
          length idxs ≤ neg_samples a * 3 - 1.
Proof.
  intros H. destruct (decide (length (ys_cache a) < 2)) as [Hs|Hs].
  - rewrite get_negs_small in H by done. injection H as <- <-.
    exists []. rewrite advance_0. split; [done|]. split; [constructor|simpl; lia].
  - destruct (get_negs_spec a xs ys) as (idxs & sampled & Hg & Hi & Hr & _); [lia|].
    rewrite Hg in H. destruct (with_parrot a sampled); [|done].
    injection H as <- <-. by exists idxs.
Qed.

(** The two ways [add_to_ys_cache] stores a target. *)
Lemma add_to_ys_cache_inv a (y : tensor) a' :
  y ≠ [] →
  add_to_ys_cache (Some y) a = Some (tt, a') →
  ∃ w,
    (w = length (ys_cache a) ∧
     (Z.of_nat (length (ys_cache a)) < ys_cache_sz a)%Z ∧
     a' = set_cache (ys_cache a ++ [y]) (CacheWrite w) a) ∨
    (w < length (ys_cache a) ∧
     (ys_cache_sz a ≤ Z.of_nat (length (ys_cache a)))%Z ∧
     a' = set_cache (<[w := y]> (ys_cache a)) (CacheWrite w) (advance 1 [] a)).
Proof.
  intros Hy. unfold add_to_ys_cache.
  destruct (length y =? 0) eqn:E0.
  { apply Nat.eqb_eq in E0. by destruct y. }
  unfold bind, gets.
  destruct (Z.of_nat (length (ys_cache a)) <? ys_cache_sz a)%Z eqn:E.
  - apply Z.ltb_lt in E. intros [= <-]. eexists. by left.
  - apply Z.ltb_ge in E.
    destruct (decide (0 ≤ ys_cache_sz a - 1)%Z) as [Hc|Hc].
    + rewrite randint_eq by done. unfold cache_set. simpl.
      destruct (_ <? length (ys_cache a)) eqn:El; [|done].
      apply Nat.ltb_lt in El. intros [= <-]. eexists. by right.
    + rewrite randint_empty by lia. done.
Qed.

Lemma add_to_ys_cache_total a (y : tensor) :
  (0 < ys_cache_sz a)%Z →
  ∃ a', add_to_ys_cache (Some y) a = Some (tt, a').
Proof.
  intros Hsz. unfold add_to_ys_cache.
  destruct (length y =? 0); [by eexists|].
  unfold bind, gets.
  destruct (Z.of_nat (length (ys_cache a)) <? ys_cache_sz a)%Z eqn:E; [by eexists|].
  apply Z.ltb_ge in E. rewrite randint_eq by lia. unfold cache_set. simpl.
  pose proof (Z.mod_pos_bound (Z.of_nat (rnd a (drawn a))) (ys_cache_sz a) Hsz).
  destruct (_ <? length (ys_cache a)) eqn:El; [by eexists|].
  apply Nat.ltb_ge in El.
  replace (ys_cache_sz a - 1 - 0 + 1)%Z with (ys_cache_sz a) in El by lia. lia.
Qed.

(** A training call either finds no negative and changes nothing but
    the draws and the log, or takes one optimizer step. *)
Lemma predict_train_inv a (xs : option tensor) (y : tensor) cands cands_txt
    (replies : list reply) a' :
  predict xs (Some y) cands cands_txt a = Some (replies, a') →
  ∃ negs a1,
    get_negs xs y a = Some (negs, a1) ∧
    ((negs = [] ∧ replies = [empty_reply] ∧ a' = a1) ∨
     (negs ≠ [] ∧ ∃ x m,
        xs = Some x ∧
        replies = [mkReply None (Some m) None None] ∧
        a' = set_model (optimizer_step (model a1) x y negs) a1)).
Proof.
  unfold Starspace.predict, bind. intros H.
  destruct (get_negs xs y a) as [[negs a1]|]; [|done].
  exists negs, a1. split; [done|].
  destruct negs as [|n negs]; simpl in H.
  - left. by injection H as <- <-.
  - right. split; [done|].
    destruct xs as [x|]; [|done]. simpl in H.
    injection H as <- <-. by eexists _, _.
Qed.

(** C5: a training call whose sampling yields no negative (as it must
    on an empty cache) returns the empty record, which has no metrics
    and hence no loss, leaves the model and optimizer state as they
    were, and still stores the target in the cache, the capacity being
    at least one: the cache afterwards is the old one with the target
    appended or written over one slot, and is exactly the target when
    the cache was empty. *)
Theorem batch_act_zero_negatives obs a (b : batch) a1 (y : tensor) :
  vectorize parse obs a = Some (b, a1) →
  ys b = Some y →
  (0 < ys_cache_sz a)%Z →
  fst <$> get_negs (xs b) y a1 = Some [] ∨ ys_cache a = [] →
  ∃ a',
    batch_act obs a = Some ([empty_reply], a') ∧
    r_metrics (empty_reply (loss_t := loss_t)) = None ∧
    model a' = model a ∧
    (ys_cache a' = ys_cache a ++ [y] ∨
     ∃ w, w < length (ys_cache a) ∧ ys_cache a' = <[w := y]> (ys_cache a)) ∧
    y ∈ ys_cache a' ∧
    (ys_cache a = [] → ys_cache a' = [y] ∧ length (ys_cache a') = 1).
Proof.
  intros Hv Hy Hsz Hzero.
  destruct (vectorize_frame _ _ _ _ _ Hv) as [d ->].
  destruct (vectorize_target _ _ _ _ _ _ Hv Hy) as [Hne _].
  assert (∃ a2, get_negs (xs b) y (advance d [] a) = Some ([], a2))
    as [a2 Hg].
  { destruct Hzero as [Hz|He].
    - destruct (get_negs _ _ _) as [[negs a2]|]; [|done].
      injection Hz as ->. by eexists.
    - eexists. apply get_negs_small. simpl. rewrite He. simpl. lia. }
  destruct (get_negs_inv _ _ _ _ _ Hg) as (idxs & -> & _).
  rewrite advance_advance in Hg.
  set (a2 := advance (d + length idxs) ([] ++ map CacheRead idxs) a) in *.
  destruct (add_to_ys_cache_total a2 y) as [a' Ha]; [done|].
  exists a'. split.
  { unfold Starspace.batch_act, bind. rewrite Hv, Hy.
    unfold Starspace.predict, bind. rewrite Hg.
    simpl. by rewrite Ha. }
  split; [done|].
  apply add_to_ys_cache_inv in Ha as [w [(-> & Hlt & ->)|(Hw & Hge & ->)]];
    [| |done]; simpl in *.
  - split; [done|]. split; [by left|]. split.
    + apply elem_of_app. right. by left.
    + by intros ->.
  - split; [done|]. split; [right; by exists w|]. split.
    + eapply list_elem_of_lookup_2. by apply list_lookup_insert_eq.
    + intros He. rewrite He in Hw. simpl in Hw. lia.
Qed.

(** C9: in a training call every read of the cache by the sampler comes
    before the one write that stores the call's target: the sampler runs
    on the cache as it was when the call began, and the target enters
    the cache only after the last sample was taken. *)
Theorem batch_act_samples_before_insert obs a (b : batch) a1 (y : tensor)
    (replies : list reply) a' :
  vectorize parse obs a = Some (b, a1) →
  ys b = Some y →
  batch_act obs a = Some (replies, a') →
  ∃ reads w negs a2,
    ys_cache a1 = ys_cache a ∧
    get_negs (xs b) y a1 = Some (negs, a2) ∧
    ys_cache a2 = ys_cache a ∧
    log a2 = log a ++ map CacheRead reads ∧
    Forall (fun i => i < length (ys_cache a)) reads ∧
    log a' = log a ++ map CacheRead reads ++ [CacheWrite w] ∧
    (ys_cache a' = ys_cache a ++ [y] ∨ ys_cache a' = <[w := y]> (ys_cache a)) ∧
    ys_cache a' !! w = Some y.
Proof.
  intros Hv Hy Hb.
  destruct (vectorize_frame _ _ _ _ _ Hv) as [d ->].
  destruct (vectorize_target _ _ _ _ _ _ Hv Hy) as [Hne _].
  unfold Starspace.batch_act, bind in Hb. rewrite Hv, Hy in Hb.
  destruct (predict _ _ _ _ _) as [[r a3]|] eqn:Hp; [|done].
  destruct (add_to_ys_cache _ a3) as [[[] a4]|] eqn:Ha; [|done].
  injection Hb as <- <-.
  apply predict_train_inv in Hp as (negs & a2 & Hg & Hcase).
  destruct (get_negs_inv _ _ _ _ _ Hg) as (idxs & -> & Hi & _).
  exists idxs.
  assert (Hc3 : ys_cache a3 = ys_cache a ∧ log a3 = log a ++ map CacheRead idxs
                ∧ ∃ m, a3 = set_model m (advance (d + length idxs) (map CacheRead idxs) a)).
  { destruct Hcase as [(_ & _ & ->)|(_ & x & m & _ & _ & ->)]; simpl;
      rewrite advance_advance, ?app_nil_r; simpl.
    - repeat split. exists (model a). by destruct a.
    - repeat split. by eexists. }
  destruct Hc3 as (Hc3 & Hl3 & m & Ha3).
  apply add_to_ys_cache_inv in Ha as [w [(-> & _ & ->)|(Hw & _ & ->)]]; [| |done].
  - exists (length (ys_cache a3)), negs,
      (advance (length idxs) (map CacheRead idxs) (advance d [] a)).
    simpl. rewrite Hc3, Hl3, app_nil_r, <- app_assoc.
    split; [done|]. split; [done|]. split; [done|]. split; [done|].
    split; [done|]. split; [done|]. split; [by left|].
    rewrite lookup_app_r by done. by rewrite Nat.sub_diag.
  - exists w, negs,
      (advance (length idxs) (map CacheRead idxs) (advance d [] a)).
    simpl. rewrite Hc3, Hl3, !app_nil_r, <- app_assoc.
    split; [done|]. split; [done|]. split; [done|]. split; [done|].
    split; [done|]. split; [done|]. split; [by right|].
    apply list_lookup_insert_eq. by rewrite <- Hc3.
Qed.

(** Every path through [predict] returns a list of one record. *)
Lemma predict_reply_length a (xs ys : option tensor) cands cands_txt
    (replies : list reply) a' :
  predict xs ys cands cands_txt a = Some (replies, a') → length replies = 1.
Proof.
  destruct ys as [y|].
  - intros (negs & a1 & _ & [(_ & -> & _)|(_ & x & m & _ & -> & _)])%predict_train_inv;
      done.
  - unfold Starspace.predict, rank, bind, gets, lift, ret, raise.
    destruct cands as [[|[cs|] ?]|]; simpl;
      repeat (case_match; simpl; try done); by intros [= <- <-].
Qed.

(** Whatever the batch, the list [batch_act] returns has one entry. *)
Lemma batch_act_reply_length obs a (replies : list reply) a' :
  batch_act obs a = Some (replies, a') → length replies = 1.
Proof.
  unfold Starspace.batch_act, bind. intros H.
  destruct (vectorize parse obs a) as [[b a1]|]; [|done].
  destruct (predict _ _ _ _ a1) as [[r a2]|] eqn:Hp; [|done].
  destruct (add_to_ys_cache _ a2) as [[[] a3]|]; [|done].
  injection H as <- <-. by eapply predict_reply_length.
Qed.

Lemma take_min_length {A} (n : nat) (l : list A) :
  take (Nat.min n (length l)) l = take n l.
Proof.
  destruct (decide (n ≤ length l)).
  - by rewrite Nat.min_l.
  - rewrite Nat.min_r by lia. by rewrite !take_ge by lia.
Qed.

#[local] Arguments take : simpl never.
#[local] Arguments Nat.min : simpl never.

(** C7: an inference call with a non-empty candidate list for the first
    observation scores every candidate and sorts the candidate positions
    by descending score, ties in the order of the candidate list; the
    record returned has for [text] the first candidate of that order and
    for [text_candidates] the texts of its first [min 100 n] positions,
    best first; the agent's state is untouched. *)
Theorem predict_ranks_candidates a (x : tensor) (cs : list tensor)
    (ct : list string) rest rest' :
  (∀ s t, score_geb s t = true ∨ score_geb t s = true) →
  (∀ s t u, score_geb s t = true → score_geb t u = true → score_geb s u = true) →
  cs ≠ [] →
  length ct = length cs →
  ∃ ind top tc,
    predict (Some x) None (Some (Some cs :: rest)) (Some (Some ct :: rest')) a
      = Some ([mkReply None None (Some top) (Some tc)], a) ∧
    ind = sort_descending score_geb (map (similarity (model a) x) cs) ∧
    ind ≡ₚ seq 0 (length cs) ∧
    StronglySorted
      (index_order score_geb (map (similarity (model a) x) cs)) ind ∧
    Forall2 (fun i c => ct !! i = Some c) (take 100 ind) tc ∧
    tc !! 0 = Some top ∧
    length tc = Nat.min 100 (length cs).
Proof.
  intros Htot Htrans Hne Hlen.
  set (pred := map (similarity (model a) x) cs).
  set (ind := sort_descending score_geb pred).
  assert (Hperm : ind ≡ₚ seq 0 (length cs)).
  { subst ind. unfold sort_descending. rewrite argsort_perm.
    subst pred. by rewrite length_map. }
  assert (Hlind : length ind = length cs) by (by rewrite Hperm, length_seq).
  assert (Hin : Forall (fun i => is_Some (ct !! i)) ind).
  { apply Forall_forall. intros i Hi. rewrite Hperm in Hi.
    apply elem_of_seq in Hi. apply lookup_lt_is_Some. lia. }
  destruct (mapM_is_Some_2 (fun i => ct !! i) (take 100 ind)) as [tc Htc].
  { apply Forall_take. exact Hin. }
  destruct ind as [|i0 ind'] eqn:Eind.
  { destruct cs; [done|]. simpl in Hlind. lia. }
  apply Forall_cons in Hin as Hin0. destruct Hin0 as [[top Htop] _].
  exists (i0 :: ind'), top, tc.
  apply mapM_Some_1 in Htc as Hf.
  split; [|split; [done|]; split; [done|]; split; [|split; [done|]; split]].
  - unfold Starspace.predict, rank, bind, gets, lift, ret. simpl.
    rewrite take_min_length. fold pred. fold ind. rewrite Eind, Htc.
    simpl. by rewrite Htop.
  - rewrite <- Eind. subst ind. unfold sort_descending.
    by apply argsort_sorted.
  - simpl in Hf. apply Forall2_cons_inv_l in Hf as (c & tc' & Hc & _ & ->).
    simpl. congruence.
  - apply Forall2_length in Hf. rewrite <- Hf, length_take. lia.
Qed.
End Engine.

Lemma predict_ranks_candidates_witness :
  ∃ ind top tc,
    predict0 (Some hello_there) None (Some [Some greetings]) (Some [Some greetings_txt]) fresh
      = Some ([mkReply None None (Some top) (Some tc)], fresh) ∧
    ind = sort_descending Z.geb (map (exact_match tt hello_there) greetings) ∧
    ind ≡ₚ seq 0 (length greetings) ∧
    StronglySorted
      (index_order Z.geb (map (exact_match tt hello_there) greetings)) ind ∧
    Forall2 (fun i c => greetings_txt !! i = Some c) (take 100 ind) tc ∧
    tc !! 0 = Some top ∧
    length tc = Nat.min 100 (length greetings).
Proof.
  apply (predict_ranks_candidates exact_match Z.geb (fun _ _ _ _ => tt)
           (fun m _ _ _ => m) fresh hello_there greetings greetings_txt [] []).
  - intros s t. rewrite !Z.geb_le. lia.
  - intros s t u. rewrite !Z.geb_le. lia.
  - discriminate.
  - reflexivity.
Defined.

(** Scenario 2 of the specification: the reply is "hello there". *)
Lemma scenario2_top_reply :
  fst <$> predict0 (Some hello_there) None (Some [Some greetings])
                   (Some [Some greetings_txt]) fresh
    = Some [mkReply None None (Some "hello there")
                    (Some ["hello there"; "hi"; "goodbye"])].
Proof. reflexivity. Qed.

Lemma batch_act_zero_negatives_witness :
  ∃ a',
    batch_act0 [labelled] fresh = Some ([empty_reply], a') ∧
    r_metrics (empty_reply (loss_t := unit)) = None ∧
    model a' = model fresh ∧
    (ys_cache a' = ys_cache fresh ++ [[[1; 2]]%Z] ∨
     ∃ w, w < length (ys_cache fresh) ∧
          ys_cache a' = <[w := [[1; 2]]%Z]> (ys_cache fresh)) ∧
    [[1; 2]]%Z ∈ ys_cache a' ∧
    (ys_cache fresh = [] → ys_cache a' = [[[1; 2]]%Z] ∧ length (ys_cache a') = 1).
Proof.
  apply (batch_act_zero_negatives abc (fun _ _ _ => 0%Z) Z.geb (fun _ _ _ _ => tt)
           (fun m _ _ _ => m) [labelled] fresh labelled_batch
           (advance 1 [] fresh) [[1; 2]]%Z).
  - reflexivity.
  - reflexivity.
  - simpl. lia.
  - right. reflexivity.
Defined.

Lemma batch_act_samples_before_insert_witness :
  ∃ reads w negs a2,
    ys_cache (advance 1 [] warm) = ys_cache warm ∧
    get_negs (Some [[5]]%Z) [[1; 2]]%Z (advance 1 [] warm) = Some (negs, a2) ∧
    ys_cache a2 = ys_cache warm ∧
    log a2 = log warm ++ map CacheRead reads ∧
    Forall (fun i => i < length (ys_cache warm)) reads ∧
    log warm_after = log warm ++ map CacheRead reads ++ [CacheWrite w] ∧
    (ys_cache warm_after = ys_cache warm ++ [[[1; 2]]%Z] ∨
     ys_cache warm_after = <[w := [[1; 2]]%Z]> (ys_cache warm)) ∧
    ys_cache warm_after !! w = Some [[1; 2]]%Z.
Proof.
  apply (batch_act_samples_before_insert abc (fun _ _ _ => 0%Z) Z.geb
           (fun _ _ _ _ => tt) (fun m _ _ _ => m) [labelled] warm labelled_batch
           (advance 1 [] warm) [[1; 2]]%Z warm_replies warm_after).
  - reflexivity.
  - reflexivity.
  - reflexivity.
Defined.

End StarspaceFacts.

(** ** More facts about candidate files *)

Module CandidatesMore.
Import Candidates Supplement CandidatesFacts.

(** A line of an unnumbered file is kept whole; the first line with a tab
    empties the list before it is added. *)
Lemma add_line_unnumbered (st : state) (line : string) :
  lines_have_ids st = false →
  (cnt st = 0 → substring 0 2 line ≠ "1 ") →
  lines_have_ids (add_line st line) = false ∧
  cnt (add_line st line) = cnt st + 1 ∧
  cands_are_replies (add_line st line) = cands_are_replies st || contains tab line ∧
  cands (add_line st line) =
    (if contains tab line && negb (cands_are_replies st) then [] else cands st)
    ++ [line].
Proof.
  intros Hids Hfirst. unfold add_line. rewrite Hids.
  assert (((cnt st + 1 =? 1) && String.eqb (substring 0 2 line) "1 ") = false) as ->.
  { destruct (cnt st + 1 =? 1) eqn:E; simpl; [|done].
    apply Nat.eqb_eq in E. apply String.eqb_neq, Hfirst. lia. }
  simpl. repeat split; try done.
  destruct (contains tab line), (cands_are_replies st); done.
Qed.

Lemma fold_add_line_unnumbered (ls : list string) (st : state) :
  lines_have_ids st = false → 0 < cnt st →
  Forall (fun x => contains tab x = false) ls ∨ cands_are_replies st = true →
  cands (fold_left add_line ls st) = cands st ++ ls.
Proof.
  revert st. induction ls as [|l ls IH]; intros st Hids Hcnt Hcase; simpl.
  - by rewrite app_nil_r.
  - destruct (add_line_unnumbered st l Hids) as (H1 & H2 & H3 & H4); [lia|].
    rewrite IH, H4; [|done|lia|].
    + rewrite <- app_assoc. simpl.
      destruct Hcase as [Hf| ->].
      * apply Forall_cons in Hf as [-> _]. done.
      * by rewrite andb_false_r.
    + rewrite H3. destruct Hcase as [Hf| ->]; [|by right].
      apply Forall_cons in Hf as [-> Hf]. rewrite orb_false_r.
      by left.
Qed.

(** X1: a file that is not numbered and holds no tab gives its non-empty
    lines, stripped and unescaped, in order. *)
Theorem load_cands_plain (lines : list string) :
  substring 0 2 (hd "" (lines_of lines)) ≠ "1 " →
  Forall (fun x => contains tab x = false) (lines_of lines) →
  load_cands (Some lines) = Some (lines_of lines).
Proof.
  intros Hfirst Hno. unfold load_cands. f_equal.
  rewrite fold_step_lines_of.
  destruct (lines_of lines) as [|l ls]; [done|]. simpl in *.
  apply Forall_cons in Hno as [Hl Hls].
  destruct (add_line_unnumbered init l eq_refl) as (H1 & H2 & H3 & H4); [done|].
  rewrite fold_add_line_unnumbered, H4; [|done|rewrite H2; simpl; lia|by left].
  by rewrite Hl.
Qed.

Lemma load_cands_plain_witness :
  load_cands (Some ["hi" +:+ String newline ""; String newline ""; " yo "])
  = Some (lines_of ["hi" +:+ String newline ""; String newline ""; " yo "]).
Proof.
  apply load_cands_plain.
  - vm_compute. discriminate.
  - vm_compute. repeat constructor.
Defined.

(** X2: in a file that is not numbered, the first line with a tab discards
    the lines before it; that line and all later ones are kept whole. *)
Theorem load_cands_unnumbered_tab (lines pre post : list string) (l : string) :
  lines_of lines = pre ++ l :: post →
  substring 0 2 (hd "" (lines_of lines)) ≠ "1 " →
  Forall (fun x => contains tab x = false) pre →
  contains tab l = true →
  load_cands (Some lines) = Some (l :: post).
Proof.
  intros Hsplit Hfirst Hpre Htab. unfold load_cands. f_equal.
  rewrite fold_step_lines_of, Hsplit, fold_left_app. simpl.
  rewrite Hsplit in Hfirst.
  assert (Hst : lines_have_ids (fold_left add_line pre init) = false ∧
                cnt (fold_left add_line pre init) = length pre ∧
                cands_are_replies (fold_left add_line pre init) = false).
  { clear Hsplit Htab. revert Hfirst.
    assert (G : ∀ ls st, lines_have_ids st = false → cands_are_replies st = false →
              (cnt st = 0 → substring 0 2 (hd "" (ls ++ l :: post)) ≠ "1 ") →
              Forall (fun x => contains tab x = false) ls →
              lines_have_ids (fold_left add_line ls st) = false ∧
              cnt (fold_left add_line ls st) = cnt st + length ls ∧
              cands_are_replies (fold_left add_line ls st) = false).
    { induction ls as [|x ls IH]; intros st Hi Hr Hf Hno; simpl.
      - repeat split; try done; lia.
      - apply Forall_cons in Hno as [Hx Hno].
        destruct (add_line_unnumbered st x Hi) as (H1 & H2 & H3 & _); [exact Hf|].
        destruct (IH (add_line st x)) as (I1 & I2 & I3); try done.
        + by rewrite H3, Hr, Hx.
        + rewrite H2. lia.
        + repeat split; try done. rewrite I2, H2. lia. }
    intros Hfirst. destruct (G pre init) as (G1 & G2 & G3); done. }
  destruct Hst as (Hi & Hc & Hr).
  destruct (add_line_unnumbered (fold_left add_line pre init) l Hi)
    as (H1 & H2 & H3 & H4).
  { intros Hz. rewrite Hc in Hz. destruct pre; [exact Hfirst|done]. }
  rewrite fold_add_line_unnumbered, H4; [|done|lia|].
  - by rewrite Htab, Hr.
  - right. by rewrite H3, Htab, orb_true_r.
Qed.

Lemma load_cands_unnumbered_tab_witness :
  load_cands (Some ["old"; "hi" +:+ String tab "there"; "more"])
  = Some [("hi" +:+ String tab "there")%string; "more"].
Proof.
  apply (load_cands_unnumbered_tab _ ["old"] ["more"]).
  - reflexivity.
  - vm_compute. discriminate.
  - repeat constructor.
  - reflexivity.
Defined.

Lemma add_line_numbered_plain (st : state) (line : string) :
  contains tab line = false → cands_are_replies st = false →
  (lines_have_ids st = true ∨ (cnt st = 0 ∧ substring 0 2 line = "1 ")) →
  lines_have_ids (add_line st line) = true ∧
  cands_are_replies (add_line st line) = false ∧
  cands (add_line st line) = cands st ++ [strip_id line].
Proof.
  intros Htab Hrep Hids. unfold add_line, strip_id. rewrite Htab, Hrep. simpl.
  assert ((if (cnt st + 1 =? 1) && String.eqb (substring 0 2 line) "1 "
           then true else lines_have_ids st) = true) as ->.
  { destruct Hids as [->|[-> ->]]; [by case_match|done]. }
  done.
Qed.

(** X3: a numbered file without tabs gives every non-empty line with its
    number prefix, up to the first space, removed. *)
Theorem load_cands_numbered_plain (lines : list string) :
  substring 0 2 (hd "" (lines_of lines)) = "1 " →
  Forall (fun x => contains tab x = false) (lines_of lines) →
  load_cands (Some lines) = Some (map strip_id (lines_of lines)).
Proof.
  intros Hfirst Hno. unfold load_cands. f_equal.
  rewrite fold_step_lines_of.
  assert (G : ∀ ls st, cands_are_replies st = false →
            (lines_have_ids st = true ∨ (cnt st = 0 ∧ substring 0 2 (hd "" ls) = "1 ")) →
            Forall (fun x => contains tab x = false) ls →
            cands (fold_left add_line ls st) = cands st ++ map strip_id ls).
  { induction ls as [|x ls IH]; intros st Hr Hi Hf; simpl.
    - by rewrite app_nil_r.
    - apply Forall_cons in Hf as [Hx Hf].
      destruct (add_line_numbered_plain st x Hx Hr Hi) as (H1 & H2 & H3).
      rewrite IH, H3; [|done|by left|done]. by rewrite <- app_assoc. }
  rewrite G; [done|done| |done]. by right.
Qed.

Lemma load_cands_numbered_plain_witness :
  load_cands (Some ["1 hello there"; "2 bye"])
  = Some (map strip_id (lines_of ["1 hello there"; "2 bye"])).
Proof.
  apply load_cands_numbered_plain.
  - reflexivity.
  - vm_compute. repeat constructor.
Defined.

Lemma all_space_strip (s : string) : all_space s = true → strip s = "".
Proof.
  unfold strip. induction s as [|c r IH]; simpl; [done|].
  intros [Hc Hr]%andb_true_iff. rewrite Hc. by apply IH.
Qed.

(** X4: a line of whitespace only is skipped: with or without it the file
    gives the same candidates. *)
Theorem load_cands_skips_blank (l1 l2 : list string) (blank : string) :
  all_space blank = true →
  load_cands (Some (l1 ++ blank :: l2)) = load_cands (Some (l1 ++ l2)).
Proof.
  intros Hb. unfold load_cands. f_equal. rewrite !fold_step_lines_of.
  f_equal. f_equal. unfold lines_of.
  rewrite !map_app, !List.filter_app. simpl.
  unfold clean at 2. by rewrite all_space_strip.
Qed.

Lemma load_cands_skips_blank_witness :
  load_cands (Some (["a"] ++ (" " +:+ String tab (String newline "")) :: ["b"]))
  = load_cands (Some (["a"] ++ ["b"])).
Proof. apply load_cands_skips_blank. reflexivity. Defined.

(** *** No candidate is empty *)

Lemma last_char_cons (c : ascii) (r : string) :
  r ≠ "" → last_char (String c r) = last_char r.
Proof. by destruct r. Qed.

Lemma rstrip_last (s : string) (c : ascii) :
  last_char (rstrip s) = Some c → is_space c = false.
Proof.
  induction s as [|a r IH]; simpl; [done|].
  destruct (rstrip r) as [|c' r'] eqn:E.
  - destruct (is_space a) eqn:Ea; simpl; [done|]. by intros [= <-].
  - rewrite last_char_cons by done. exact IH.
Qed.

Lemma unescape_empty (s : string) : unescape s = "" → s = "".
Proof.
  destruct s as [|c [|c' r]]; simpl; try done.
  by destruct (_ && _).
Qed.

Lemma unescape_cons2 (a a' : ascii) (r : string) :
  unescape (String a (String a' r)) =
    if (Ascii.eqb a backslash && Ascii.eqb a' "n")%bool
    then String newline (unescape r)
    else String a (unescape (String a' r)).
Proof. reflexivity. Qed.

Lemma unescape_last (n : nat) : ∀ (s : string) (c : ascii),
  String.length s ≤ n →
  last_char (unescape s) = Some c → c = newline ∨ last_char s = Some c.
Proof.
  induction n as [|n IH]; intros s c Hn.
  - destruct s; [done|simpl in Hn; lia].
  - destruct s as [|a [|a' r]]; [done|by right|].
    simpl in Hn. rewrite unescape_cons2.
    destruct (Ascii.eqb a backslash && Ascii.eqb a' "n") eqn:E.
    + destruct (unescape r) as [|u ur] eqn:Eu.
      * simpl. intros [= <-]. by left.
      * rewrite last_char_cons by done. rewrite <- Eu. intros H.
        apply IH in H; [|lia]. destruct H as [->|H]; [by left|right].
        assert (Hr : r ≠ "") by (intros ->; done).
        by rewrite !last_char_cons.
    + assert (Hu : unescape (String a' r) ≠ "") by (by intros ?%unescape_empty).
      rewrite last_char_cons by done. intros H.
      apply IH in H; [|simpl; lia]. destruct H as [->|H]; [by left|right].
      by rewrite last_char_cons.
Qed.

(** A stripped and unescaped line does not end in a space. *)
Lemma clean_last (raw : string) (c : ascii) :
  last_char (clean raw) = Some c → c ≠ " "%char.
Proof.
  unfold clean. intros H.
  apply (unescape_last _ _ _ (Nat.le_refl _)) in H as [->|H]; [done|].
  unfold strip in H. apply rstrip_last in H. intros ->. done.
Qed.

Lemma find_ge (ch : ascii) (s : string) : (-1 ≤ find ch s)%Z.
Proof.
  induction s as [|a r IH]; simpl; [lia|].
  destruct (Ascii.eqb a ch); [lia|].
  destruct (find ch r <? 0)%Z eqn:E; [lia|]. apply Z.ltb_ge in E. lia.
Qed.

(** What follows the first space of such a line is not empty. *)
Lemma strip_id_nonempty (s : string) (c : ascii) :
  last_char s = Some c → c ≠ " "%char → strip_id s ≠ "".
Proof.
  unfold strip_id. induction s as [|a r IH]; [done|].
  intros Hl Hc. simpl find.
  destruct (Ascii.eqb a " ") eqn:Ea.
  - apply Ascii.eqb_eq in Ea as ->. simpl.
    destruct r; [|done]. simpl in Hl. congruence.
  - pose proof (find_ge " " r) as Hge.
    destruct (find " " r <? 0)%Z eqn:E.
    + done.
    + apply Z.ltb_ge in E.
      replace (Z.to_nat (find " " r + 1 + 1)) with (S (Z.to_nat (find " " r + 1)))
        by lia.
      simpl. assert (r ≠ "") by (intros ->; simpl in E; lia).
      apply IH; [|done]. by rewrite <- last_char_cons with (c := a).
Qed.

Lemma add_line_nonempty (st : state) (line : string) :
  line ≠ "" → strip_id line ≠ "" →
  Forall (fun c => c ≠ "") (cands st) →
  Forall (fun c => c ≠ "") (cands (add_line st line)).
Proof.
  intros Hl Hs Hc. unfold add_line. fold (strip_id line).
  assert (Hc' : Forall (fun c => c ≠ "")
                  (if contains tab line && negb (cands_are_replies st)
                   then [] else cands st)) by (by case_match).
  set (c0 := if contains tab line && negb (cands_are_replies st)
             then [] else cands st) in *.
  assert (Hadd : ∀ x, x ≠ "" → Forall (fun c => c ≠ "") (c0 ++ [x])).
  { intros x Hx. apply Forall_app. split; [done|]. by repeat constructor. }
  destruct (if (cnt st + 1 =? 1) && String.eqb (substring 0 2 line) "1 "
            then true else lines_have_ids st); [|by apply Hadd].
  destruct (if contains tab line && negb (cands_are_replies st)
            then true else cands_are_replies st); [|by apply Hadd].
  destruct (split tab (strip_id line)) as [|? [|f ?]]; simpl; try done.
  destruct (String.eqb f "") eqn:Ef; simpl; [done|].
  apply Hadd. by apply String.eqb_neq.
Qed.

(** X5: [load_cands] never returns an empty candidate; it returns [None]
    only for the path [None]. *)
Theorem load_cands_nonempty (file : option (list string)) :
  match load_cands file with
  | Some cs => Forall (fun c => c ≠ "") cs
  | None => file = None
  end.
Proof.
  destruct file as [lines|]; [|done]. simpl.
  assert (G : ∀ ls st, Forall (fun c => c ≠ "") (cands st) →
            Forall (fun c => c ≠ "") (cands (fold_left step ls st))).
  { induction ls as [|raw ls IH]; intros st Hc; [done|]. simpl.
    apply IH. unfold step.
    destruct (0 <? String.length (clean raw)) eqn:E; [|done].
    assert (Hne : clean raw ≠ "") by (intros Heq; by rewrite Heq in E).
    apply add_line_nonempty; [done| |done].
    destruct (last_char (clean raw)) as [c|] eqn:El.
    - eapply strip_id_nonempty; [done|]. by eapply clean_last.
    - destruct (clean raw) as [|a [|? ?]]; [done|done|].
      exfalso. clear -El. revert El. generalize (String a0 s). intros s0.
      revert a. induction s0 as [|b r IH]; intros a; [done|].
      destruct r; [done|]. apply (IH b). }
  apply G. constructor.
Qed.

End CandidatesMore.

(** ** More facts about the option override *)

Module OptionsMore.
Import Options OptionsFacts.

(** Options that already hold what [new_opt] says for the model keys are
    left as they are, and nothing is printed. *)
Lemma override_opt_fixed (o new_opt : gmap string value) :
  (∀ k v, k ∈ model_args → new_opt !! k = Some v → o !! k = Some v) →
  override_opt o new_opt = (o, []).
Proof.
  unfold override_opt.
  induction new_opt as [|i x m Hi Hfold IH] using map_first_key_ind; intros H.
  - by rewrite map_fold_empty.
  - rewrite map_fold_insert_first_key by done. rewrite IH.
    + unfold override_step. case_decide as Hin; [|done].
      rewrite (H i x Hin) by apply lookup_insert_eq.
      rewrite decide_True by done. by rewrite insert_id by (apply H; [done|apply lookup_insert_eq]).
    + intros k v Hk Hv. apply H; [done|].
      rewrite lookup_insert_ne; [done|]. intros ->. congruence.
Qed.

(** X6: overriding the options with themselves, as [load] does with the
    options [save] wrote, changes nothing and prints nothing. *)
Theorem override_opt_reload (opt : gmap string value) :
  override_opt opt opt = (opt, []).
Proof. apply override_opt_fixed. auto. Qed.

(** X7: overriding twice with the same [new_opt] is overriding once: the
    second pass changes nothing and prints nothing. *)
Theorem override_opt_idempotent (opt new_opt : gmap string value) :
  override_opt (override_opt opt new_opt).1 new_opt
  = ((override_opt opt new_opt).1, []).
Proof.
  apply override_opt_fixed. intros k v Hk Hv.
  rewrite override_opt_lookup. unfold overridden.
  rewrite decide_True by done. by rewrite Hv.
Qed.

(** X8: the lines printed are these: "Adding" for each model key of
    [new_opt] the options lacked, and "Overriding", with the old value, for
    each model key whose value [new_opt] changes; nothing else. *)
Theorem override_opt_messages (opt new_opt : gmap string value) (msg : message) :
  msg ∈ (override_opt opt new_opt).2 ↔
  ∃ k v, new_opt !! k = Some v ∧ k ∈ model_args ∧
         ((opt !! k = None ∧ msg = Adding k v) ∨
          (∃ old, opt !! k = Some old ∧ old ≠ v ∧ msg = Overriding k old v)).
Proof.
  pose proof (override_opt_lookup opt) as Hl. unfold override_opt in *.
  induction new_opt as [|i x m Hi Hfold IH] using map_first_key_ind.
  - rewrite map_fold_empty. simpl. split; [by intros ?%elem_of_nil|].
    intros (k & v & H & _). by rewrite lookup_empty in H.
  - rewrite map_fold_insert_first_key by done.
    specialize (Hl m i). unfold overridden in Hl. rewrite Hi in Hl.
    assert (Hoi : (map_fold override_step (opt, []) m).1 !! i = opt !! i)
      by (rewrite Hl; by case_decide).
    destruct (map_fold override_step (opt, []) m) as [o out] eqn:E.
    simpl in IH, Hoi. unfold override_step.
    assert (Hother : (∃ k v, m !! k = Some v ∧ k ∈ model_args ∧
               ((opt !! k = None ∧ msg = Adding k v) ∨
                (∃ old, opt !! k = Some old ∧ old ≠ v ∧ msg = Overriding k old v)))
             ∨ (i ∈ model_args ∧
                ((opt !! i = None ∧ msg = Adding i x) ∨
                 (∃ old, opt !! i = Some old ∧ old ≠ x ∧ msg = Overriding i old x)))
             ↔ ∃ k v, <[i:=x]> m !! k = Some v ∧ k ∈ model_args ∧
               ((opt !! k = None ∧ msg = Adding k v) ∨
                (∃ old, opt !! k = Some old ∧ old ≠ v ∧ msg = Overriding k old v))).
    { split.
      - intros [(k & v & Hk & Hrest)|(Hin & Hrest)].
        + exists k, v. split; [|done]. rewrite lookup_insert_ne; [done|].
          intros ->. congruence.
        + exists i, x. split; [apply lookup_insert_eq|done].
      - intros (k & v & Hk & Hin & Hrest).
        destruct (decide (i = k)) as [->|Hne].
        + rewrite lookup_insert_eq in Hk. injection Hk as ->. by right.
        + rewrite lookup_insert_ne in Hk by done. left. by exists k, v. }
    rewrite <- Hother, <- IH. clear Hother IH.
    case_decide as Hin; simpl;
      [|split; [by left|]; intros [Hm|[Hc _]]; [done|contradiction]].
    rewrite Hoi. destruct (opt !! i) as [old|] eqn:Eo.
    + case_decide as Heq.
      * subst old. split; [by left|]. intros [H|(_ & [[? _]|(old & ? & ? & _)])]; [done|done|].
        congruence.
      * rewrite elem_of_app, list_elem_of_singleton. split.
        -- intros [H| ->]; [by left|]. right. split; [done|]. right. by exists old.
        -- intros [H|(_ & [[? _]|(old' & ? & ? & ->)])]; [by left|done|].
           right. congruence.
    + rewrite elem_of_app, list_elem_of_singleton. split.
      * intros [H| ->]; [by left|]. right. split; [done|]. by left.
      * intros [H|(_ & [[_ ->]|(old' & ? & _)])]; [by left|by right|done].
Qed.

End OptionsMore.

(** ** More facts about the agent *)

Module StarspaceMore.
Import Deque StableSort Starspace Examples Supplement.
Import DequeFacts StableSortFacts StarspaceFacts.

(** *** [same] *)

Lemma wrap64_cong (z : Z) : ∃ q, wrap64 z = (z + 2 ^ 64 * q)%Z.
Proof.
  unfold wrap64. pose proof (Z.div_mod (z + 2 ^ 63) (2 ^ 64))%Z.
  exists (- ((z + 2 ^ 63) / 2 ^ 64))%Z. lia.
Qed.

Lemma wrap64_zero_iff (z : Z) : wrap64 z = 0%Z ↔ (z mod 2 ^ 64 = 0)%Z.
Proof.
  destruct (wrap64_cong z) as [q Hq].
  assert (Hr : (- 2 ^ 63 ≤ wrap64 z < 2 ^ 63)%Z).
  { unfold wrap64. pose proof (Z.mod_pos_bound (z + 2 ^ 63) (2 ^ 64))%Z. lia. }
  split.
  - intros H0. rewrite H0 in Hq.
    replace z with (0 + (- q) * 2 ^ 64)%Z by lia. by rewrite Z.mod_add.
  - intros Hm. apply Z.mod_divide in Hm as [d Hd]; [|lia]. lia.
Qed.

Lemma tensor_sub_sum (a b : list Z) :
  length a = length b →
  ∃ q, foldr Z.add 0%Z (tensor_sub a b)
       = (foldr Z.add 0 a - foldr Z.add 0 b + 2 ^ 64 * q)%Z.
Proof.
  revert b. induction a as [|x a IH]; intros [|y b] Hl; simpl in Hl; try done.
  - exists 0%Z. simpl. lia.
  - destruct (IH b) as [q Hq]; [lia|].
    destruct (wrap64_cong (x - y)) as [q' Hq'].
    exists (q + q')%Z.
    change (foldr Z.add 0%Z (tensor_sub (x :: a) (y :: b)))
      with (wrap64 (x - y) + foldr Z.add 0%Z (tensor_sub a b))%Z.
    rewrite Hq, Hq'. simpl. lia.
Qed.

(** [same] holds exactly when the lengths agree and the sums of the token
    indices agree modulo 2^64. *)
Lemma same_true_iff (y1 y2 : tensor) :
  same y1 y2 = true ↔
  length (squeeze y1) = length (squeeze y2) ∧
  ((token_sum y1 - token_sum y2) mod 2 ^ 64 = 0)%Z.
Proof.
  unfold same, token_sum.
  destruct (length (squeeze y1) =? length (squeeze y2)) eqn:El; simpl.
  - apply Nat.eqb_eq in El.
    destruct (tensor_sub_sum _ _ El) as [q Hq].
    assert (Hz : tensor_sum (tensor_sub (squeeze y1) (squeeze y2)) = 0%Z ↔
                 ((foldr Z.add 0 (squeeze y1) - foldr Z.add 0 (squeeze y2))
                    mod 2 ^ 64 = 0)%Z).
    { unfold tensor_sum. rewrite wrap64_zero_iff, Hq.
      replace (2 ^ 64 * q)%Z with (q * 2 ^ 64)%Z by lia. by rewrite Z.mod_add. }
    destruct (0 <? Z.abs _)%Z eqn:Ea.
    + apply Z.ltb_lt in Ea. split; [done|]. intros [_ H]. apply Hz in H. lia.
    + apply Z.ltb_ge in Ea. split; [|done]. intros _. split; [done|].
      apply Hz. lia.
  - apply Nat.eqb_neq in El. split; [done|]. by intros [? _].
Qed.

(** X9: [same] compares lengths and sums, nothing else: it holds exactly
    when the two tensors have as many items and their sums differ by a
    multiple of 2^64. *)
Theorem same_iff_sums_agree (y1 y2 : tensor) :
  same y1 y2 = true ↔
  length (squeeze y1) = length (squeeze y2) ∧
  ((token_sum y1 - token_sum y2) mod 2 ^ 64 = 0)%Z.
Proof. apply same_true_iff. Qed.

(** X10: [same] is reflexive and symmetric. *)
Theorem same_refl_sym (y1 y2 : tensor) :
  same y1 y1 = true ∧ same y1 y2 = same y2 y1.
Proof.
  split.
  - apply same_true_iff. split; [done|]. by rewrite Z.sub_diag.
  - apply eq_true_iff_eq. rewrite !same_true_iff.
    assert (Hm : ∀ x y : Z, ((x - y) mod 2 ^ 64 = 0 → (y - x) mod 2 ^ 64 = 0)%Z).
    { intros x y H. apply Z.mod_divide in H as [d Hd]; [|lia].
      replace (y - x)%Z with (0 + (- d) * 2 ^ 64)%Z by lia. by rewrite Z.mod_add. }
    split; intros [Hl Hs]; (split; [done|by apply Hm]).
Qed.

(** X11: a tensor whose items are those of the target in another order is
    [same] as the target, so the sampler never takes it for a negative. *)
Theorem same_permuted_tokens (y1 y2 : tensor) :
  squeeze y1 ≡ₚ squeeze y2 → same y1 y2 = true.
Proof.
  intros Hp. apply same_true_iff. split; [by rewrite Hp|].
  unfold token_sum.
  assert (foldr Z.add 0%Z (squeeze y1) = foldr Z.add 0%Z (squeeze y2)) as ->.
  { induction Hp; simpl; lia. }
  by rewrite Z.sub_diag.
Qed.

Lemma same_permuted_tokens_witness :
  same [[1; 2; 3]]%Z [[3; 1; 2]]%Z = true.
Proof.
  apply same_permuted_tokens. simpl.
  apply (Permutation_cons_app [3] [2] 1)%Z. apply (Permutation_cons_app [3] [] 2)%Z.
  reflexivity.
Defined.

(** *** [compute_metrics] *)

Lemma rank_loop_count {score : Type} (geb : score → score → bool)
    (pos : score) (cnt : nat) (rest : list score) :
  rank_loop geb pos cnt rest
  = cnt + length (List.filter (fun s => geb s pos) rest).
Proof.
  revert cnt. induction rest as [|s rest IH]; intros cnt; simpl; [lia|].
  rewrite IH. destruct (geb s pos); simpl; lia.
Qed.

(** X12: on the score of the positive followed by those of the negatives,
    [compute_metrics] passes the loss on, and [mean_rank] is the number of
    negatives that score at least as high as the positive, which is where
    the counting loop of the method ends when started at zero: at most as
    many as there are negatives, none exactly when every negative scores
    strictly lower, and all of them exactly when every negative ties with
    or beats the positive.  Without any score it raises. *)
Theorem compute_metrics_rank {score loss_t : Type} (geb : score → score → bool)
    (l : loss_t) (pos : score) (negs : list score) :
  compute_metrics geb l [] = None ∧
  ∃ m, compute_metrics geb l (pos :: negs) = Some m ∧
       loss m = l ∧
       mean_rank m = length (List.filter (fun s => geb s pos) negs) ∧
       mean_rank m = rank_loop geb pos 0 negs ∧
       mean_rank m ≤ length negs ∧
       (mean_rank m = 0 ↔ Forall (fun s => geb s pos = false) negs) ∧
       (mean_rank m = length negs ↔ Forall (fun s => geb s pos = true) negs).
Proof.
  split; [done|]. eexists. split; [reflexivity|]. simpl.
  split; [done|]. split; [done|].
  split; [by rewrite rank_loop_count|]. split; [apply filter_length_le|].
  induction negs as [|s negs IH]; simpl.
  - split; split; by constructor.
  - pose proof (filter_length_le (fun s => geb s pos) negs) as Hle.
    destruct IH as [IH0 IHn]. destruct (geb s pos) eqn:E; simpl.
    + split; split.
      * lia.
      * intros [? _]%Forall_cons. congruence.
      * intros H. apply Forall_cons. split; [done|]. apply IHn. lia.
      * intros [_ H]%Forall_cons. apply IHn in H. lia.
    + split; split.
      * intros H. apply Forall_cons. split; [done|]. by apply IH0.
      * intros [_ H]%Forall_cons. by apply IH0.
      * lia.
      * intros [? _]%Forall_cons. congruence.
Qed.

(** *** Sampling and [predict] *)

Section Step.
Context {mstate score loss_t : Type}.
Variable parse : string → list Z.
Variable similarity : mstate → tensor → tensor → score.
Variable score_geb : score → score → bool.
Variable criterion : mstate → tensor → tensor → list tensor → loss_t.
Variable optimizer_step : mstate → tensor → tensor → list tensor → mstate.
Implicit Types (a : @agent mstate) (obs : list observation).

Abbreviation predict := (predict similarity score_geb criterion optimizer_step).
Abbreviation batch_act := (batch_act parse similarity score_geb criterion optimizer_step).
Abbreviation act := (act parse similarity score_geb criterion optimizer_step).
Abbreviation reply := (@reply loss_t).
#[local] Arguments add_to_ys_cache : simpl never.
#[local] Arguments get_negs : simpl never.
#[local] Arguments take : simpl never.
#[local] Arguments Nat.min : simpl never.

(** X13: with fewer than two cached targets a training call of [predict]
    does nothing at all: it returns the empty record and leaves the agent
    as it was, without a draw, a cache access or a model call, and without
    looking up the last utterance even when [parrot_neg] is on. *)
Theorem predict_small_cache a (xs : option tensor) (y : tensor) cands cands_txt :
  length (ys_cache a) < 2 →
  predict xs (Some y) cands cands_txt a = Some ([empty_reply], a).
Proof.
  intros H. unfold Starspace.predict, bind.
  by rewrite get_negs_small.
Qed.

(** X14: with [parrot_neg] on and at least two cached targets, [get_negs]
    raises when the history holds no last utterance; otherwise it returns
    the sampled negatives, at most [k] entries of the cache that [same]
    tells apart from the target, followed by the last utterance when that
    has more than two tokens, whether or not it equals the target. *)
Theorem get_negs_parrot a (xs : option tensor) (ys : tensor) :
  2 ≤ length (ys_cache a) →
  (0 < parrot_neg a)%Z →
  match last_utterance a with
  | None => get_negs xs ys a = None
  | Some utt =>
      ∃ sampled a',
        get_negs xs ys a =
          Some (if 2 <? length utt then sampled ++ [[utt]] else sampled, a') ∧
        length sampled ≤ neg_samples a ∧
        Forall (fun t => same ys t = false ∧ t ∈ ys_cache a) sampled ∧
        ys_cache a' = ys_cache a
  end.
Proof.
  intros Hlen Hp.
  destruct (get_negs_spec a xs ys Hlen) as (idxs & sampled & Hg & _ & _ & Hs & Hc).
  unfold with_parrot in Hg. apply Z.ltb_lt in Hp. rewrite Hp in Hg.
  destruct (last_utterance a) as [utt|]; [|done].
  eexists sampled, _. split; [exact Hg|].
  split; [|done].
  pose proof (Nat.le_min_l (neg_samples a)
                (hits ys a (drawn a) (neg_samples a * 3 - 1))) as Hle.
  rewrite <- Hc in Hle. exact Hle.
Qed.

(** An inference call reads the agent and changes nothing. *)
Lemma predict_eval_state a (xs : option tensor) cands cands_txt
    (replies : list reply) a' :
  predict xs None cands cands_txt a = Some (replies, a') → a' = a.
Proof.
  unfold Starspace.predict.
  destruct cands as [[|[cs|] rest]|].
  - done.
  - unfold rank, bind, gets, lift, ret, raise.
    destruct xs as [x|]; [|done]. simpl.
    destruct cands_txt as [[|[ct|] ?]|]; simpl; try done.
    destruct (_ ≫= _); simpl; [|done].
    destruct (mapM _ _); simpl; [|done].
    by intros [= _ <-].
  - unfold bind, gets, ret, raise. simpl.
    destruct (fixedCands a) as [[|]|]; simpl; try done; by intros [= _ <-].
  - unfold bind, gets, ret, raise. simpl.
    destruct (fixedCands a) as [[|]|]; simpl; try done; by intros [= _ <-].
Qed.

(** X15: an inference call of [predict] leaves the agent as it was, so
    asking again gives the same reply. *)
Theorem predict_eval_idempotent a (xs : option tensor) cands cands_txt
    (replies : list reply) a' :
  predict xs None cands cands_txt a = Some (replies, a') →
  a' = a ∧ predict xs None cands cands_txt a' = Some (replies, a').
Proof.
  intros H. pose proof (predict_eval_state _ _ _ _ _ _ H) as ->. done.
Qed.

(** X16: a training call for which sampling returned at least one
    negative takes exactly one optimizer step, from the model as it was,
    on the input, the target and those negatives, and returns one record
    whose metrics hold the loss of that model and a rank of at most the
    number of negatives; without an input tensor it raises. *)
Theorem predict_training_step a (xs : option tensor) (y : tensor) cands cands_txt
    (negs : list tensor) a1 :
  get_negs xs y a = Some (negs, a1) →
  negs ≠ [] →
  match xs with
  | None => predict xs (Some y) cands cands_txt a = None
  | Some x =>
      ∃ m, predict xs (Some y) cands cands_txt a =
             Some ([mkReply None (Some m) None None],
                   set_model (optimizer_step (model a) x y negs) a1) ∧
           loss m = criterion (model a) x y negs ∧
           mean_rank m ≤ length negs
  end.
Proof.
  intros Hg Hne. unfold Starspace.predict, bind. rewrite Hg.
  destruct (get_negs_inv _ _ _ _ _ Hg) as (idxs & -> & _).
  destruct negs as [|n negs]; [done|]. simpl.
  destruct xs as [x|]; [|done]. simpl.
  eexists. split; [reflexivity|]. cbn [mean_rank loss]. split; [done|].
  change (length (List.filter (fun s => score_geb s (similarity (model a) x y))
                              (map (similarity (model a) x) (n :: negs)))
          ≤ length (n :: negs)).
  etrans; [apply filter_length_le|]. by rewrite length_map.
Qed.

End Step.

(** *** [vectorize] *)

Lemma StronglySorted_lookup_lt {A} (R : A → A → Prop) (l : list A) (i j : nat) (x y : A) :
  StronglySorted R l → i < j → l !! i = Some x → l !! j = Some y → R x y.
Proof.
  intros Hs. revert i j. induction Hs as [|z l Hs IH Hz]; intros i j Hij Hi Hj.
  - done.
  - destruct j as [|j]; [lia|]. simpl in Hj. destruct i as [|i]; simpl in Hi.
    + injection Hi as ->. eapply Forall_forall in Hz; [exact Hz|].
      by eapply list_elem_of_lookup_2.
    + eapply (IH i j); [lia|done..].
Qed.

Lemma StronglySorted_impl_elem {A} (R R' : A → A → Prop) (l : list A) :
  StronglySorted R l →
  (∀ x y, x ∈ l → y ∈ l → R x y → R' x y) →
  StronglySorted R' l.
Proof.
  induction 1 as [|z l Hs IH Hz]; intros Himp; constructor.
  - apply IH. intros x y Hx Hy. apply Himp; by right.
  - apply Forall_forall. intros y Hy. rewrite Forall_forall in Hz.
    apply Himp; [left|by right|by apply Hz].
Qed.

Lemma StronglySorted_select {A} (P : nat → nat → Prop) (R : A → A → Prop)
    (l : list A) (inds : list nat) :
  StronglySorted P inds →
  (∀ i j x y, P i j → l !! i = Some x → l !! j = Some y → R x y) →
  StronglySorted R (select inds l).
Proof.
  intros Hs HR. unfold select. induction Hs as [|i inds Hs IH Hi]; simpl.
  - constructor.
  - destruct (l !! i) as [x|] eqn:Ei; [|done].
    apply StronglySorted_cons. split; [|done].
    apply Forall_forall. intros y Hy.
    apply list_elem_of_omap in Hy as (j & Hj & Hly).
    eapply Forall_forall in Hi; [|done]. by eapply HR.
Qed.

Lemma imap_filter_sorted (P : nat * observation → bool) (l : list observation) (k : nat) :
  StronglySorted (fun p q : nat * observation => fst p < fst q)
                 (List.filter P (imap (fun i ex => (k + i, ex)) l)) ∧
  Forall (fun p => k ≤ fst p) (List.filter P (imap (fun i ex => (k + i, ex)) l)).
Proof.
  revert k. induction l as [|x l IH]; intros k; simpl.
  - split; constructor.
  - assert (E : imap ((fun i ex => (k + i, ex)) ∘ S) l
                = imap (fun i ex => (S k + i, ex)) l).
    { apply imap_ext. intros i y _. simpl. f_equal. lia. }
    rewrite E. destruct (IH (S k)) as [Hs Hf].
    assert (Hf' : Forall (fun p : nat * observation => k ≤ fst p)
                    (List.filter P (imap (fun i ex => (S k + i, ex)) l))).
    { eapply Forall_impl; [exact Hf|]. simpl. intros. lia. }
    destruct (P (k + 0, x)); [|done].
    split.
    + apply StronglySorted_cons. split; [|done].
      eapply Forall_impl; [exact Hf|]. simpl. intros. lia.
    + apply Forall_cons. split; [simpl; lia|done].
Qed.

(** The valid examples come in the order of the observations, each with
    its position. *)
Lemma valid_examples_sorted (obs : list observation) :
  StronglySorted (fun p q : nat * observation => fst p < fst q) (valid_examples obs).
Proof. apply (imap_filter_sorted (fun p => valid (snd p)) obs 0). Qed.

Lemma valid_examples_elem (obs : list observation) (p : nat * observation) :
  p ∈ valid_examples obs ↔ obs !! fst p = Some (snd p) ∧ valid (snd p) = true.
Proof.
  unfold valid_examples. rewrite list_elem_of_In, filter_In, <- list_elem_of_In.
  rewrite elem_of_lookup_imap. split.
  - intros [(i & y & -> & Hy) Hv]. done.
  - intros [Hl Hv]. split; [|done]. exists (fst p), (snd p). by destruct p.
Qed.

Lemma valid_examples_none (obs : list observation) :
  Forall (fun o => valid o = false) obs → valid_examples obs = [].
Proof.
  intros H. destruct (valid_examples obs) as [|p l] eqn:E; [done|].
  assert (Hp : p ∈ valid_examples obs) by (rewrite E; left).
  apply valid_examples_elem in Hp as [Hl Hv].
  apply list_elem_of_lookup_2 in Hl. rewrite Forall_forall in H.
  specialize (H _ Hl). congruence.
Qed.

(** X17: the batch [vectorize] works on holds every valid observation once,
    with its position among the observations, longest context first, and
    observations whose contexts are equally long in their original order. *)
Theorem sorted_examples_order (obs : list observation) :
  sorted_examples obs ≡ₚ valid_examples obs ∧
  StronglySorted batch_order (sorted_examples obs) ∧
  ∀ p, p ∈ sorted_examples obs ↔ obs !! fst p = Some (snd p) ∧ valid (snd p) = true.
Proof.
  split; [apply sorted_examples_perm|]. split.
  - unfold sorted_examples, ind_sorted.
    set (vexs := valid_examples obs).
    set (keys := map (fun n => (- Z.of_nat n)%Z)
                     (map length (map (fun ex => default [] (text2vec ex))
                                      (map snd vexs)))).
    eapply (StronglySorted_select (index_order Z.leb keys)).
    + apply argsort_sorted.
      * intros x y. rewrite !Z.leb_le. lia.
      * intros x y z. rewrite !Z.leb_le. lia.
    + intros i j p q (ki & kj & Hki & Hkj & Hle & Hst) Hp Hq.
      assert (Hk : ∀ n r, vexs !! n = Some r →
                keys !! n = Some (- Z.of_nat (length (context (snd r))))%Z).
      { intros n r Hr. subst keys.
        change (map ?f ?l) with (f <$> l). rewrite !list_lookup_fmap, Hr. done. }
      rewrite (Hk _ _ Hp) in Hki. rewrite (Hk _ _ Hq) in Hkj.
      injection Hki as <-. injection Hkj as <-.
      apply Z.leb_le in Hle. split; [lia|]. intros Hlen.
      assert (Hij : i < j) by (apply Hst, Z.leb_le; lia).
      exact (StronglySorted_lookup_lt _ _ _ _ _ _ (valid_examples_sorted obs) Hij Hp Hq).
  - intros p. rewrite sorted_examples_perm. apply valid_examples_elem.
Qed.

(** With contexts of one length the stable sort moves nothing. *)
Lemma sorted_examples_equal_lengths (obs : list observation) (n : nat) :
  Forall (fun p => length (context (snd p)) = n) (valid_examples obs) →
  sorted_examples obs = valid_examples obs.
Proof.
  intros Hf.
  apply (StronglySorted_unique_strong
           (fun p q : nat * observation => fst p < fst q)).
  - intros p q _ _ H1 H2. lia.
  - unfold sorted_examples, ind_sorted.
    eapply (StronglySorted_select
              (index_order Z.leb
                 (map (fun n => (- Z.of_nat n)%Z)
                    (map length (map (fun ex => default [] (text2vec ex))
                                     (map snd (valid_examples obs))))))).
    + apply argsort_sorted.
      * intros x y. rewrite !Z.leb_le. lia.
      * intros x y z. rewrite !Z.leb_le. lia.
    + intros i j p q (ki & kj & Hki & Hkj & Hle & Hst) Hp Hq.
      assert (Hk : ∀ m r, valid_examples obs !! m = Some r →
                map (fun n => (- Z.of_nat n)%Z)
                  (map length (map (fun ex => default [] (text2vec ex))
                                   (map snd (valid_examples obs)))) !! m
                = Some (- Z.of_nat (length (context (snd r))))%Z).
      { intros m r Hr. change (map ?f ?l) with (f <$> l).
        rewrite !list_lookup_fmap, Hr. done. }
      rewrite (Hk _ _ Hp) in Hki. rewrite (Hk _ _ Hq) in Hkj.
      injection Hki as <-. injection Hkj as <-.
      assert (Hij : i < j).
      { apply Hst, Z.leb_le. rewrite Forall_forall in Hf.
        rewrite (Hf p), (Hf q); [lia| |]; by eapply list_elem_of_lookup_2. }
      exact (StronglySorted_lookup_lt _ _ _ _ _ _ (valid_examples_sorted obs) Hij Hp Hq).
  - apply valid_examples_sorted.
  - apply sorted_examples_perm.
Qed.

Section Batch.
Context {mstate : Type}.
Variable parse : string → list Z.
Implicit Types (a : @agent mstate) (obs : list observation).

Lemma max_len_const {A} (rows : list (list A)) (n : nat) :
  rows ≠ [] → Forall (fun r => length r = n) rows → max_len rows = n.
Proof.
  intros Hne Hf. apply Nat.le_antisymm.
  - apply max_len_le. eapply Forall_impl; [exact Hf|]. simpl. intros. lia.
  - destruct rows as [|r rows]; [done|].
    apply Forall_cons in Hf as [<- _]. apply max_len_ge. left.
Qed.

(** Contexts of one length need no padding. *)
Lemma LongTensor_equal_lengths (exs : list observation) (n : nat) :
  Forall (fun ex => length (context ex) = n) exs →
  LongTensor (padded_x exs) = Some (map context exs).
Proof.
  intros Hf. destruct exs as [|e exs]; [done|].
  unfold padded_x. fold context.
  assert (Hm : max_len (map context (e :: exs)) = n).
  { apply max_len_const; [done|]. apply Forall_forall. intros r Hr.
    apply list_elem_of_In, in_map_iff in Hr as (ex & <- & Hex).
    rewrite Forall_forall in Hf. apply Hf. by apply list_elem_of_In. }
  change (fun ex => default [] (text2vec ex)) with context.
  rewrite Hm.
  assert (Hrows : map (pad_x n) (map context (e :: exs))
                  = map (map Idx) (map context (e :: exs))).
  { rewrite !map_map. apply map_ext_in. intros ex Hex.
    rewrite Forall_forall in Hf. unfold pad_x.
    rewrite (Hf ex) by (by apply list_elem_of_In).
    rewrite Nat.sub_diag. simpl. by rewrite app_nil_r. }
  rewrite Hrows. unfold LongTensor.
  rewrite (rectangular_same_length _ n).
  - change (map (map Idx) ?l) with ((fmap (M := list) Idx) <$> l).
    apply mapM_fmap_Some. intros r. by apply mapM_fmap_Some.
  - apply Forall_forall. intros r Hr.
    apply list_elem_of_In, in_map_iff in Hr as (r' & <- & Hr').
    apply in_map_iff in Hr' as (ex & <- & Hex).
    rewrite length_map. rewrite Forall_forall in Hf. apply Hf.
    by apply list_elem_of_In.
Qed.

(** X18: when the valid contexts of a batch all have one length, as in a
    batch of one, the batch keeps the order of the observations, and the
    input tensor, if [vectorize] returns, holds those contexts unchanged. *)
Theorem vectorize_equal_lengths obs a (n : nat) :
  Forall (fun p => length (context (snd p)) = n) (valid_examples obs) →
  sorted_examples obs = valid_examples obs ∧
  LongTensor (padded_x (map snd (sorted_examples obs)))
    = Some (map context (map snd (valid_examples obs))) ∧
  ∀ (b : batch) a', vectorize parse obs a = Some (b, a') →
    valid_examples obs ≠ [] →
    xs b = Some (map context (map snd (valid_examples obs))).
Proof.
  intros Hf.
  pose proof (sorted_examples_equal_lengths obs n Hf) as Heq.
  split; [done|]. rewrite Heq.
  assert (HL : LongTensor (padded_x (map snd (valid_examples obs)))
               = Some (map context (map snd (valid_examples obs)))).
  { apply (LongTensor_equal_lengths _ n). apply Forall_forall.
    intros ex Hex. apply list_elem_of_In, in_map_iff in Hex as (p & <- & Hp).
    rewrite Forall_forall in Hf. apply Hf. by apply list_elem_of_In. }
  split; [done|].
  intros b a' [(E & _)|(_ & x & Hx & Hxs & _)]%vectorize_inv Hne; [done|].
  rewrite Heq, HL in Hx. by injection Hx as <-.
Qed.

Lemma sorted_exs_elem obs (o : observation) :
  o ∈ map snd (sorted_examples obs) ↔ o ∈ obs ∧ valid o = true.
Proof.
  change (map snd (sorted_examples obs)) with (snd <$> sorted_examples obs).
  rewrite sorted_examples_perm, list_elem_of_fmap. split.
  - intros (p & -> & [Hl Hv]%valid_examples_elem). split; [|done].
    by eapply list_elem_of_lookup_2.
  - intros [[i Hi]%list_elem_of_lookup_1 Hv]. exists (i, o). split; [done|].
    by apply valid_examples_elem.
Qed.

Lemma labels_avail_true obs :
  (∃ o, o ∈ obs ∧ valid o = true ∧ is_Some (labels o)) →
  existsb (fun ex => bool_decide (is_Some (labels ex)))
          (map snd (sorted_examples obs)) = true.
Proof.
  intros (o & Ho & Hv & Hl). apply existsb_exists. exists o. split.
  - apply list_elem_of_In, sorted_exs_elem. done.
  - by apply bool_decide_eq_true.
Qed.

Lemma labels_avail_false obs :
  (∀ o, o ∈ obs → valid o = true → labels o = None) →
  existsb (fun ex => bool_decide (is_Some (labels ex)))
          (map snd (sorted_examples obs)) = false.
Proof.
  intros H. apply not_true_is_false. intros (o & Ho & Hl)%existsb_exists.
  apply list_elem_of_In, sorted_exs_elem in Ho as [Ho Hv].
  apply bool_decide_eq_true in Hl. rewrite (H o Ho Hv) in Hl.
  by destruct Hl.
Qed.

Lemma valid_examples_some obs (o : observation) :
  o ∈ obs → valid o = true → valid_examples obs ≠ [].
Proof.
  intros [i Hi]%list_elem_of_lookup_1 Hv E.
  assert (Hp : (i, o) ∈ valid_examples obs) by (by apply valid_examples_elem).
  rewrite E in Hp. by apply elem_of_nil in Hp.
Qed.

(** [vectorize] on a batch with a labelled valid example. *)
Lemma vectorize_labelled obs a :
  (∃ o, o ∈ obs ∧ valid o = true ∧ is_Some (labels o)) →
  vectorize parse obs a =
    match LongTensor (padded_x (map snd (sorted_examples obs))) with
    | None => None
    | Some x =>
        match choose_labels (map snd (sorted_examples obs)) a with
        | None => None
        | Some (chosen, a1) =>
            match LongTensor (map (map Idx) (label_rows parse (truncate a1) chosen)) with
            | None => None
            | Some t => Some (mkBatch (Some x) (Some t) (Some []) (Some []), a1)
            end
        end
    end.
Proof.
  intros Hl. pose proof (labels_avail_true obs Hl) as Ha.
  destruct Hl as (o & Ho & Hv & _).
  pose proof (valid_examples_some obs o Ho Hv) as Hne.
  unfold vectorize. destruct (valid_examples obs) as [|p l] eqn:Ev; [done|].
  rewrite Ha. unfold bind, lift, gets, ret.
  destruct (LongTensor (padded_x _)) as [x|]; [|done].
  destruct (choose_labels _ a) as [[chosen a1]|]; [|done].
  by destruct (LongTensor (map _ _)) as [t|].
Qed.

(** [vectorize] on a batch whose valid examples carry no labels. *)
Lemma vectorize_unlabelled obs a :
  valid_examples obs ≠ [] →
  (∀ o, o ∈ obs → valid o = true → labels o = None) →
  vectorize parse obs a =
    match LongTensor (padded_x (map snd (sorted_examples obs))) with
    | None => None
    | Some x =>
        Some (mkBatch (Some x) None
                      (Some (map fst (map (candidates parse) obs)))
                      (Some (map snd (map (candidates parse) obs))), a)
    end.
Proof.
  intros Hne Hl. pose proof (labels_avail_false obs Hl) as Ha.
  unfold vectorize. destruct (valid_examples obs) as [|p l] eqn:Ev; [done|].
  rewrite Ha. unfold bind, lift, ret.
  by destruct (LongTensor (padded_x _)) as [x|].
Qed.

Lemma choose_labels_raise (exs : list observation) (ex : observation) a :
  ex ∈ exs → labels ex = Some [] → choose_labels exs a = None.
Proof.
  intros Hin Hl. revert a. induction exs as [|e exs IH]; intros a.
  { by apply elem_of_nil in Hin. }
  simpl. unfold bind.
  apply elem_of_cons in Hin as [<-|Hin].
  - by rewrite Hl.
  - destruct (choice _ a) as [[y a1]|]; [|done].
    by rewrite (IH Hin a1).
Qed.

(** X19: a valid observation whose list of labels is empty makes
    [vectorize] raise on the whole batch, whatever the other observations
    hold: [random.choice] has nothing to choose from. *)
Theorem vectorize_empty_labels_raise obs a (o : observation) :
  o ∈ obs → valid o = true → labels o = Some [] →
  vectorize parse obs a = None.
Proof.
  intros Ho Hv Hl. rewrite vectorize_labelled.
  - destruct (LongTensor (padded_x _)) as [x|]; [|done].
    rewrite (choose_labels_raise _ o); [done| |done].
    by apply sorted_exs_elem.
  - exists o. rewrite Hl. by eauto.
Qed.

(** The rows of the target tensor: what the cap keeps of each label,
    padded with the null index to the longest of them. *)
Lemma label_rows_kept (trunc : option nat) (chosen : list string) :
  label_rows parse trunc chosen =
  map (fun y => kept_tokens trunc (parse y) ++
                replicate (max_len (map (fun y => kept_tokens trunc (parse y)) chosen)
                           - length (kept_tokens trunc (parse y))) NULL_IDX)
      chosen.
Proof.
  destruct trunc as [n|]; [apply label_rows_bounded|].
  unfold label_rows.
  assert (Hp : map (parse_label parse None) chosen
               = map (fun y => Deque.mkDeque None (parse y)) chosen).
  { apply map_ext. intros y. apply extendleft_rev_unbounded. }
  rewrite Hp, !map_map. simpl.
  apply map_ext. intros y.
  unfold pad_y. by rewrite extend_fits.
Qed.

Lemma label_rows_width (trunc : option nat) (chosen : list string) :
  Forall (fun r => length r =
                   max_len (map (fun y => kept_tokens trunc (parse y)) chosen))
         (label_rows parse trunc chosen).
Proof.
  rewrite label_rows_kept. apply Forall_forall. intros r Hr.
  apply list_elem_of_In, in_map_iff in Hr as (y & <- & Hy).
  rewrite length_app, length_replicate.
  assert (length (kept_tokens trunc (parse y))
          ≤ max_len (map (fun y => kept_tokens trunc (parse y)) chosen)).
  { apply max_len_ge, list_elem_of_In, in_map_iff. by exists y. }
  lia.
Qed.

(** X20: the target tensor [vectorize] returns has one row for each valid
    observation, all of one width, which is the length of the longest
    chosen label after the cap and so never more than the cap. *)
Theorem vectorize_target_shape obs a (b : batch) a' (t : tensor) :
  vectorize parse obs a = Some (b, a') →
  ys b = Some t →
  length t = length (valid_examples obs) ∧
  ∃ chosen,
    choose_labels (map snd (sorted_examples obs)) a = Some (chosen, a') ∧
    Forall (fun r => length r =
                     max_len (map (fun y => kept_tokens (truncate a) (parse y)) chosen)) t ∧
    ∀ n, truncate a = Some n → Forall (fun r => length r ≤ n) t.
Proof.
  intros [(_ & -> & _)|(Hne & x & _ & Hx & [(Hn & _)|(chosen & t' & Hc & Ht & Hy & _)])]%vectorize_inv Hys.
  - done.
  - congruence.
  - rewrite Hy in Hys. injection Hys as ->.
    apply LongTensor_indices in Ht. subst t.
    pose proof (label_rows_width (truncate a) chosen) as Hw.
    split; [|exists chosen; split; [done|split; [done|]]].
    + apply choose_labels_frame in Hc as [_ Hc].
      unfold label_rows. cbv zeta. rewrite !length_map, Hc, length_map.
      by rewrite sorted_examples_perm.
    + intros n Hn. eapply Forall_impl; [exact Hw|]. simpl. intros r ->.
      rewrite Hn. apply max_len_le, Forall_forall. intros r' Hr'.
      apply list_elem_of_In, in_map_iff in Hr' as (y & <- & _).
      simpl. rewrite length_take. lia.
Qed.

(** X21: without a cap ([truncate] not positive, the agent's field
    [None]) every row of the target tensor is the whole parsed label,
    followed by the null index up to the longest label of the batch. *)
Theorem vectorize_uncapped_labels obs a (b : batch) a' (t : tensor) :
  truncate a = None →
  vectorize parse obs a = Some (b, a') →
  ys b = Some t →
  ∃ chosen,
    choose_labels (map snd (sorted_examples obs)) a = Some (chosen, a') ∧
    t = map (fun y => parse y ++
                      replicate (max_len (map parse chosen) - length (parse y)) NULL_IDX)
            chosen.
Proof.
  intros Htr [(_ & -> & _)|(Hne & x & _ & Hx & [(Hn & _)|(chosen & t' & Hc & Ht & Hy & _)])]%vectorize_inv Hys.
  - done.
  - congruence.
  - rewrite Hy in Hys. injection Hys as ->.
    apply LongTensor_indices in Ht. subst t.
    exists chosen. split; [done|]. by rewrite Htr, label_rows_kept.
Qed.

(** X22: on a batch whose valid observations carry no labels and have
    contexts of one length, [vectorize] returns, draws nothing and leaves
    the agent as it was; the input tensor has a row for each valid
    observation, the candidate lists an entry for every observation, valid
    or not, in the order of the observations. *)
Theorem vectorize_eval obs a (n : nat) :
  valid_examples obs ≠ [] →
  Forall (fun p => length (context (snd p)) = n) (valid_examples obs) →
  (∀ o, o ∈ obs → valid o = true → labels o = None) →
  ∃ (x : tensor) cs ct,
    vectorize parse obs a = Some (mkBatch (Some x) None (Some cs) (Some ct), a) ∧
    x = map context (map snd (valid_examples obs)) ∧
    length cs = length obs ∧ length ct = length obs ∧
    ∀ i o, obs !! i = Some o →
      cs !! i = Some (map (fun c => [parse c]) <$> label_candidates o) ∧
      ct !! i = Some (label_candidates o).
Proof.
  intros Hne Hf Hl.
  pose proof (sorted_examples_equal_lengths obs n Hf) as Heq.
  rewrite (vectorize_unlabelled obs a Hne Hl), Heq.
  rewrite (LongTensor_equal_lengths _ n).
  - eexists _, _, _. split; [done|]. split; [done|].
    rewrite !length_map. split; [done|]. split; [done|].
    intros i o Hi. change (map ?f ?l) with (f <$> l).
    rewrite !list_lookup_fmap, Hi. unfold candidates. simpl.
    by destruct (label_candidates o).
  - apply Forall_forall. intros ex Hex.
    apply list_elem_of_In, in_map_iff in Hex as (p & <- & Hp).
    rewrite Forall_forall in Hf. apply Hf. by apply list_elem_of_In.
Qed.

End Batch.

(** *** [batch_act] and [act] *)

Section Turn.
Context {mstate score loss_t : Type}.
Variable parse : string → list Z.
Variable similarity : mstate → tensor → tensor → score.
Variable score_geb : score → score → bool.
Variable criterion : mstate → tensor → tensor → list tensor → loss_t.
Variable optimizer_step : mstate → tensor → tensor → list tensor → mstate.
Implicit Types (a : @agent mstate) (obs : list observation).

Abbreviation predict := (predict similarity score_geb criterion optimizer_step).
Abbreviation batch_act := (batch_act parse similarity score_geb criterion optimizer_step).
Abbreviation act := (act parse similarity score_geb criterion optimizer_step).
Abbreviation reply := (@reply loss_t).
#[local] Arguments add_to_ys_cache : simpl never.
#[local] Arguments get_negs : simpl never.

Lemma set_model_same a : set_model (model a) a = a.
Proof. by destruct a. Qed.

(** [predict] draws numbers, reads the cache and may replace the model;
    it touches nothing else. *)
Lemma predict_state a (xs ys : option tensor) cands cands_txt
    (replies : list reply) a' :
  predict xs ys cands cands_txt a = Some (replies, a') →
  ∃ d evs m, a' = set_model m (advance d evs a).
Proof.
  destruct ys as [y|].
  - intros (negs & a1 & Hg & H)%predict_train_inv.
    apply get_negs_inv in Hg as (idxs & -> & _).
    destruct H as [(_ & _ & ->)|(_ & x & m & _ & _ & ->)].
    + eexists _, _, _. by rewrite set_model_same.
    + by eexists _, _, _.
  - intros ->%predict_eval_state. exists 0, [], (model a).
    by rewrite advance_0, set_model_same.
Qed.

Lemma add_to_ys_cache_no_capacity a (y : tensor) :
  (ys_cache_sz a ≤ 0)%Z → y ≠ [] → add_to_ys_cache (Some y) a = None.
Proof.
  intros Hsz Hy. unfold add_to_ys_cache.
  destruct (length y =? 0) eqn:E0.
  { apply Nat.eqb_eq in E0. by destruct y. }
  unfold bind, gets.
  destruct (Z.of_nat (length (ys_cache a)) <? ys_cache_sz a)%Z eqn:E.
  { apply Z.ltb_lt in E. lia. }
  by rewrite randint_empty by lia.
Qed.

(** X23: a batch without a valid observation gets the one empty record as
    its reply, candidates or not, and the agent stays as it was: nothing
    is drawn, the cache and the model are not touched. *)
Theorem batch_act_no_valid obs a :
  Forall (fun o => valid o = false) obs →
  fixedCands a = None →
  batch_act obs a = Some ([empty_reply], a).
Proof.
  intros Hv Hf. unfold Starspace.batch_act, vectorize.
  rewrite (valid_examples_none obs Hv).
  unfold bind, ret. simpl. unfold bind, gets. by rewrite Hf.
Qed.

(** X24: with a cache capacity of zero or less no training batch gets
    through: once the target is built and the model has replied, storing
    the target draws a slot from an empty range and raises. *)
Theorem batch_act_no_capacity obs a :
  (ys_cache_sz a ≤ 0)%Z →
  (∃ o, o ∈ obs ∧ valid o = true ∧ is_Some (labels o)) →
  batch_act obs a = None.
Proof.
  intros Hsz Hl. unfold Starspace.batch_act, bind.
  destruct (vectorize parse obs a) as [[b a1]|] eqn:Hv; [|done].
  destruct (predict _ _ _ _ a1) as [[r a2]|] eqn:Hp; [|done].
  assert (∃ t, ys b = Some t ∧ t ≠ []) as (t & Hy & Ht).
  { rewrite (vectorize_labelled parse obs a Hl) in Hv.
    destruct (LongTensor (padded_x _)) as [x|]; [|done].
    destruct (choose_labels _ a) as [[chosen a0]|] eqn:Hc; [|done].
    destruct (LongTensor (map _ _)) as [t|] eqn:Et; [|done].
    injection Hv as <- <-. exists t. split; [done|].
    apply LongTensor_length in Et. apply choose_labels_frame in Hc as [_ Hc].
    unfold label_rows in Et. cbv zeta in Et.
    rewrite !length_map in Et. rewrite length_map in Hc.
    destruct Hl as (o & Ho & Hvo & _).
    pose proof (sorted_examples_nonempty obs (valid_examples_some obs o Ho Hvo)).
    destruct (sorted_examples obs); [done|].
    destruct t; [|done]. simpl in *. lia. }
  apply vectorize_frame in Hv as [d ->].
  apply predict_state in Hp as (d' & evs & m & ->).
  rewrite Hy, add_to_ys_cache_no_capacity; done.
Qed.

(** X25: what a batch leaves alone.  [batch_act] returns one reply
    whatever the size of the batch; it keeps the agent's settings and its
    random source, only moves forward in the source and in the log of
    cache accesses, and the cache either keeps its size or grows by one
    entry, the latter only within the capacity. *)
Theorem batch_act_frame obs a (replies : list reply) a' :
  batch_act obs a = Some (replies, a') →
  length replies = 1 ∧
  truncate a' = truncate a ∧ neg_samples a' = neg_samples a ∧
  parrot_neg a' = parrot_neg a ∧ ys_cache_sz a' = ys_cache_sz a ∧
  last_utterance a' = last_utterance a ∧ fixedCands a' = fixedCands a ∧
  rnd a' = rnd a ∧ drawn a ≤ drawn a' ∧
  (∃ evs, log a' = log a ++ evs) ∧
  (length (ys_cache a') = length (ys_cache a) ∨
   (length (ys_cache a') = S (length (ys_cache a)) ∧
    (Z.of_nat (length (ys_cache a')) ≤ ys_cache_sz a)%Z)).
Proof.
  intros H. split; [by eapply batch_act_reply_length|].
  unfold Starspace.batch_act, bind in H.
  destruct (vectorize parse obs a) as [[b a1]|] eqn:Hv; [|done].
  destruct (predict _ _ _ _ a1) as [[r a2]|] eqn:Hp; [|done].
  destruct (add_to_ys_cache _ a2) as [[[] a3]|] eqn:Ha; [|done].
  injection H as _ <-.
  pose proof Hv as Hv'. apply vectorize_frame in Hv' as [d ->].
  apply predict_state in Hp as (d' & evs & m & ->).
  destruct (ys b) as [t|] eqn:Hy.
  - destruct (vectorize_target _ _ _ _ _ _ Hv Hy) as [Hne _].
    apply add_to_ys_cache_inv in Ha as (w & [(-> & Hlt & ->)|(Hw & Hge & ->)]); [| |done].
    + simpl in *. split_and!; try done; try lia.
      * exists (evs ++ [CacheWrite (length (ys_cache a))]).
        by rewrite app_nil_r, app_assoc.
      * right. rewrite length_app. simpl. lia.
    + simpl in *. split_and!; try done; try lia.
      * exists (evs ++ [CacheWrite w]). by rewrite !app_nil_r, app_assoc.
      * left. by rewrite length_insert.
  - injection Ha as <-. simpl. split_and!; try done; try lia.
    exists evs. by rewrite app_nil_r.
Qed.

(** X26: a batch whose valid observations carry no labels is answered
    without a trace: no number is drawn, and the cache, the model and the
    log are as before. *)
Theorem batch_act_eval_pure obs a (replies : list reply) a' :
  (∀ o, o ∈ obs → valid o = true → labels o = None) →
  batch_act obs a = Some (replies, a') →
  a' = a.
Proof.
  intros Hl H. unfold Starspace.batch_act, bind in H.
  destruct (vectorize parse obs a) as [[b a1]|] eqn:Hv; [|done].
  assert (ys b = None ∧ a1 = a) as [Hy ->].
  { destruct (valid_examples obs) as [|p l] eqn:Ev.
    - unfold vectorize in Hv. rewrite Ev in Hv. by injection Hv as <- <-.
    - rewrite (vectorize_unlabelled parse obs a) in Hv; [|by rewrite Ev|done].
      destruct (LongTensor (padded_x _)); [|done]. by injection Hv as <- <-. }
  rewrite Hy in H.
  destruct (predict _ _ _ _ a) as [[r a2]|] eqn:Hp; [|done].
  apply predict_eval_state in Hp as ->. simpl in H. by injection H as _ <-.
Qed.

(** X27: [act] is [batch_act] on the batch of the one observation: it
    returns a reply exactly when that batch does, the same reply, and
    leaves the agent in the same state. *)
Theorem act_batch_of_one (o : observation) a (r : reply) a' :
  act o a = Some (r, a') ↔ batch_act [o] a = Some ([r], a').
Proof.
  unfold Starspace.act, bind.
  destruct (batch_act [o] a) as [[rs a1]|] eqn:Hb; [|done].
  pose proof (batch_act_reply_length _ _ _ _ _ _ _ _ _ Hb) as Hlen.
  destruct rs as [|r0 [|? ?]]; try done. simpl.
  split; intros [= -> ->]; done.
Qed.

(** X28: targets stored one after the other while the cache has room go
    to its end in the order they come, without a random draw and without
    touching the model. *)
Theorem add_all_fills a (ts : list tensor) :
  Forall (fun t => t ≠ []) ts →
  (Z.of_nat (length (ys_cache a) + length ts) ≤ ys_cache_sz a)%Z →
  ∃ a', add_all ts a = Some (tt, a') ∧
        ys_cache a' = ys_cache a ++ ts ∧
        drawn a' = drawn a ∧ model a' = model a ∧
        ys_cache_sz a' = ys_cache_sz a.
Proof.
  intros Hts. revert a. induction Hts as [|t ts Ht _ IH]; intros a Hsz.
  - exists a. by rewrite app_nil_r.
  - simpl. unfold bind.
    destruct (add_to_ys_cache_total a t) as [a1 Ha]; [simpl in Hsz; lia|].
    rewrite Ha.
    apply add_to_ys_cache_inv in Ha as (w & [(-> & Hlt & ->)|(Hw & Hge & ->)]);
      [| simpl in Hsz; lia | done].
    destruct (IH (set_cache (ys_cache a ++ [t]) (CacheWrite (length (ys_cache a))) a))
      as (a' & Hadd & Hc & Hd & Hm & Hs).
    { simpl. rewrite length_app. simpl in *. lia. }
    exists a'. split; [done|]. simpl in *.
    by rewrite Hc, <- app_assoc.
Qed.

(** X29: with a capacity of at least one, storing targets one after the
    other always goes through, and a cache within its capacity stays
    within it: it grows by one per target until it is full and keeps that
    size from then on. *)
Theorem add_all_size a (ts : list tensor) :
  (0 < ys_cache_sz a)%Z →
  (Z.of_nat (length (ys_cache a)) ≤ ys_cache_sz a)%Z →
  Forall (fun t => t ≠ []) ts →
  ∃ a', add_all ts a = Some (tt, a') ∧
        ys_cache_sz a' = ys_cache_sz a ∧
        Z.of_nat (length (ys_cache a'))
        = Z.min (ys_cache_sz a) (Z.of_nat (length (ys_cache a) + length ts)).
Proof.
  intros Hpos Hle Hts. revert a Hpos Hle.
  induction Hts as [|t ts Ht _ IH]; intros a Hpos Hle.
  - exists a. split; [done|]. split; [done|]. rewrite Nat.add_0_r. lia.
  - simpl. unfold bind.
    destruct (add_to_ys_cache_total a t Hpos) as [a1 Ha]. rewrite Ha.
    apply add_to_ys_cache_inv in Ha as (w & [(-> & Hlt & ->)|(Hw & Hge & ->)]); [| |done].
    + destruct (IH (set_cache (ys_cache a ++ [t]) (CacheWrite (length (ys_cache a))) a))
        as (a' & Hadd & Hs & Hc); [done|simpl; rewrite length_app; simpl; lia|].
      exists a'. split; [done|]. simpl in *. split; [done|].
      rewrite Hc, length_app. simpl. lia.
    + destruct (IH (set_cache (<[w:=t]> (ys_cache a)) (CacheWrite w) (advance 1 [] a)))
        as (a' & Hadd & Hs & Hc); [done|simpl; rewrite length_insert; lia|].
      exists a'. split; [done|]. simpl in *. split; [done|].
      rewrite Hc, length_insert. lia.
Qed.

End Turn.

Lemma get_negs_parrot_witness :
  ∃ sampled a',
    get_negs None [[1; 2]]%Z
      (mkAgent None 2 1 3 cache3 (Some [7; 8; 9]%Z) None tt (fun n => n) 0 []) =
      Some (if 2 <? length [7; 8; 9]%Z then sampled ++ [[[7; 8; 9]%Z]] else sampled, a') ∧
    length sampled ≤ 2 ∧
    Forall (fun t => same [[1; 2]]%Z t = false ∧ t ∈ cache3) sampled ∧
    ys_cache a' = cache3.
Proof.
  apply (get_negs_parrot
           (mkAgent None 2 1 3 cache3 (Some [7; 8; 9]%Z) None tt (fun n => n) 0 [])
           None [[1; 2]]%Z).
  - simpl. lia.
  - simpl. lia.
Defined.

Lemma predict_small_cache_witness :
  predict0 (Some [[5]]%Z) (Some [[1; 2]]%Z) None None fresh
  = Some ([empty_reply], fresh).
Proof.
  apply (predict_small_cache exact_match Z.geb (fun _ _ _ _ => tt)
           (fun m _ _ _ => m) fresh).
  simpl. lia.
Defined.

Lemma predict_eval_idempotent_witness :
  fresh = fresh ∧
  predict0 (Some hello_there) None (Some [Some greetings]) (Some [Some greetings_txt]) fresh
  = Some ([mkReply None None (Some "hello there")
                   (Some ["hello there"; "hi"; "goodbye"])], fresh).
Proof.
  apply (predict_eval_idempotent exact_match Z.geb (fun _ _ _ _ => tt)
           (fun m _ _ _ => m) fresh (Some hello_there)
           (Some [Some greetings]) (Some [Some greetings_txt])).
  reflexivity.
Defined.

Lemma predict_training_step_witness :
  ∃ m, predict0 (Some [[5]]%Z) (Some [[1; 2]]%Z) None None warm =
         Some ([mkReply None (Some m) None None],
               set_model tt (advance 3 [CacheRead 0; CacheRead 1; CacheRead 2] warm)) ∧
       loss m = tt ∧
       mean_rank m ≤ length [[[3]]; [[4]]]%Z.
Proof.
  apply (predict_training_step exact_match Z.geb (fun _ _ _ _ => tt)
           (fun m _ _ _ => m) warm (Some [[5]]%Z) [[1; 2]]%Z None None
           [[[3]]; [[4]]]%Z
           (advance 3 [CacheRead 0; CacheRead 1; CacheRead 2] warm)).
  - reflexivity.
  - discriminate.
Defined.

Lemma vectorize_equal_lengths_witness :
  sorted_examples two_plain = valid_examples two_plain ∧
  LongTensor (padded_x (map snd (sorted_examples two_plain)))
    = Some (map context (map snd (valid_examples two_plain))) ∧
  ∀ (b : batch) a', vectorize abc two_plain fresh = Some (b, a') →
    valid_examples two_plain ≠ [] →
    xs b = Some (map context (map snd (valid_examples two_plain))).
Proof.
  apply (vectorize_equal_lengths abc two_plain fresh 2).
  simpl. repeat constructor.
Defined.

Lemma vectorize_empty_labels_raise_witness :
  vectorize abc [labelled; mkObs (Some [6]%Z) (Some []) None] fresh = None.
Proof.
  apply (vectorize_empty_labels_raise abc _ fresh (mkObs (Some [6]%Z) (Some []) None)).
  - right. left.
  - reflexivity.
  - reflexivity.
Defined.

Lemma vectorize_target_shape_witness :
  length [[1; 2]]%Z = length (valid_examples [labelled]) ∧
  ∃ chosen,
    choose_labels (map snd (sorted_examples [labelled])) fresh
      = Some (chosen, advance 1 [] fresh) ∧
    Forall (fun r => length r =
                     max_len (map (fun y => kept_tokens (truncate fresh) (abc y)) chosen))
           [[1; 2]]%Z ∧
    ∀ n, truncate fresh = Some n → Forall (fun r => length r ≤ n) [[1; 2]]%Z.
Proof.
  apply (vectorize_target_shape abc [labelled] fresh labelled_batch
           (advance 1 [] fresh) [[1; 2]]%Z).
  - reflexivity.
  - reflexivity.
Defined.

Lemma vectorize_uncapped_labels_witness :
  ∃ chosen,
    choose_labels (map snd (sorted_examples [labelled]))
                  (agent_of None 2 3 [] (fun _ => 0))
      = Some (chosen, advance 1 [] (agent_of None 2 3 [] (fun _ => 0))) ∧
    [[1; 2; 3]]%Z
    = map (fun y => abc y ++
                    replicate (max_len (map abc chosen) - length (abc y)) NULL_IDX)
          chosen.
Proof.
  apply (vectorize_uncapped_labels abc [labelled] (agent_of None 2 3 [] (fun _ => 0))
           (mkBatch (Some [[5]]%Z) (Some [[1; 2; 3]]%Z) (Some []) (Some []))).
  - reflexivity.
  - reflexivity.
  - reflexivity.
Defined.

Lemma vectorize_eval_witness :
  ∃ (x : tensor) cs ct,
    vectorize abc (mkObs None None (Some ["hi"]) :: two_plain) fresh
      = Some (mkBatch (Some x) None (Some cs) (Some ct), fresh) ∧
    x = map context (map snd (valid_examples (mkObs None None (Some ["hi"]) :: two_plain))) ∧
    length cs = 3 ∧ length ct = 3 ∧
    ∀ i o, (mkObs None None (Some ["hi"]) :: two_plain) !! i = Some o →
      cs !! i = Some (map (fun c => [abc c]) <$> label_candidates o) ∧
      ct !! i = Some (label_candidates o).
Proof.
  apply (vectorize_eval abc (mkObs None None (Some ["hi"]) :: two_plain) fresh 2).
  - simpl. discriminate.
  - simpl. repeat constructor.
  - intros o Ho _. unfold two_plain in Ho.
    repeat (apply elem_of_cons in Ho as [->|Ho]; [reflexivity|]).
    by apply elem_of_nil in Ho.
Defined.

Lemma batch_act_no_valid_witness :
  batch_act0 [mkObs None None None; mkObs (Some []) None (Some ["hi"])] fresh
  = Some ([empty_reply], fresh).
Proof.
  apply (batch_act_no_valid abc (fun _ _ _ => 0%Z) Z.geb (fun _ _ _ _ => tt)
           (fun m _ _ _ => m)).
  - repeat constructor.
  - reflexivity.
Defined.

Lemma batch_act_no_capacity_witness :
  batch_act0 [labelled] (agent_of (Some 2) 2 0 [] (fun _ => 0)) = None.
Proof.
  apply (batch_act_no_capacity abc (fun _ _ _ => 0%Z) Z.geb (fun _ _ _ _ => tt)
           (fun m _ _ _ => m)).
  - simpl. lia.
  - exists labelled. split; [left|]. split; [reflexivity|]. by eexists.
Defined.

Lemma batch_act_frame_witness :
  length warm_replies = 1 ∧
  truncate warm_after = truncate warm ∧ neg_samples warm_after = neg_samples warm ∧
  parrot_neg warm_after = parrot_neg warm ∧ ys_cache_sz warm_after = ys_cache_sz warm ∧
  last_utterance warm_after = last_utterance warm ∧
  fixedCands warm_after = fixedCands warm ∧
  rnd warm_after = rnd warm ∧ drawn warm ≤ drawn warm_after ∧
  (∃ evs, log warm_after = log warm ++ evs) ∧
  (length (ys_cache warm_after) = length (ys_cache warm) ∨
   (length (ys_cache warm_after) = S (length (ys_cache warm)) ∧
    (Z.of_nat (length (ys_cache warm_after)) ≤ ys_cache_sz warm)%Z)).
Proof.
  apply (batch_act_frame abc (fun _ _ _ => 0%Z) Z.geb (fun _ _ _ _ => tt)
           (fun m _ _ _ => m) [labelled] warm warm_replies warm_after).
  reflexivity.
Defined.

Lemma batch_act_eval_pure_witness :
  batch_act0 [mkObs (Some [7; 8]%Z) None (Some greetings_txt)] fresh
  = Some ([mkReply None None (Some "hi") (Some greetings_txt)], fresh) ∧
  fresh = fresh.
Proof.
  split; [reflexivity|].
  apply (batch_act_eval_pure abc (fun _ _ _ => 0%Z) Z.geb (fun _ _ _ _ => tt)
           (fun m _ _ _ => m) [mkObs (Some [7; 8]%Z) None (Some greetings_txt)] fresh
           [mkReply None None (Some "hi") (Some greetings_txt)] fresh).
  - intros o Ho _. apply elem_of_cons in Ho as [->|Ho]; [reflexivity|].
    by apply elem_of_nil in Ho.
  - reflexivity.
Defined.

Lemma add_all_fills_witness :
  ∃ a', add_all [[[1]]; [[2]]]%Z fresh = Some (tt, a') ∧
        ys_cache a' = ys_cache fresh ++ [[[1]]; [[2]]]%Z ∧
        drawn a' = drawn fresh ∧ model a' = model fresh ∧
        ys_cache_sz a' = ys_cache_sz fresh.
Proof.
  apply (add_all_fills fresh [[[1]]; [[2]]]%Z).
  - repeat constructor; discriminate.
  - simpl. lia.
Defined.

Lemma add_all_size_witness :
  ∃ a', add_all [[[9]]; [[8]]]%Z warm = Some (tt, a') ∧
        ys_cache_sz a' = ys_cache_sz warm ∧
        Z.of_nat (length (ys_cache a'))
        = Z.min (ys_cache_sz warm) (Z.of_nat (length (ys_cache warm) + 2)).
Proof.
  apply (add_all_size warm [[[9]]; [[8]]]%Z).
  - simpl. lia.
  - simpl. lia.
  - repeat constructor; discriminate.
Defined.

End StarspaceMore.
